(** * Whiteboard server: session registry, hue allocator, stroke log

    A shallow embedding of the Socket.io server of the collaborative
    whiteboard (the custom Next.js server): the hue allocator
    ([makeColorFromHue], [parseHueFromColorString], [getUsedHues],
    [assignUniqueHue]), the registry [connectedSockets], the stroke log
    [strokes], and every handler installed by [io.on('connection', ...)].

    Conventions of the embedding.
    - A JavaScript string is its sequence of UTF-16 code units, [list N].
    - A JavaScript number that is only passed through (coordinates, line
      width) is an IEEE binary64, Rocq's primitive [float].  Hues and the
      values of [Math.floor(...)] are integers far below 2^53, on which the
      double arithmetic of the source is exact: they are [Z], and the
      remainder operator [%] is [Z.rem] (truncating, as in JavaScript).
    - [connectedSockets] is a JavaScript [Map]: an association list in
      insertion order, with the [get]/[set]/[delete] of [Map].
    - [new Set()] of hues is a [gset Z].
    - The module-level variables ([hueSeed], [connectedSockets], [strokes])
      are the fields of [state]; handlers run in a small state-and-output
      monad, the output being the list of emitted Socket.io messages.
    - [Math.random()] is an oracle: the integer each call site computes from
      it is carried by the inbound event. *)

From Stdlib Require Import ZArith Ascii String Floats.PrimFloat.
From stdpp Require Import base tactics option list numbers gmap fin_sets pretty.

Local Open Scope Z_scope.
Set Warnings "-register-all,-clear-no-such-hyp".

(** ** Strings *)

Abbreviation jsstring := (list N).

(** A string literal of the source (ASCII), as code units. *)
Definition lit (s : string) : jsstring :=
  N_of_ascii <$> list_ascii_of_string s.

(** Template-literal interpolation of an integer: its decimal digits. *)
Definition numToString (n : Z) : jsstring := lit (pretty n).

(** ECMAScript WhiteSpace and LineTerminator code points: what
    [String.prototype.trim] strips and what [\s] matches. *)
Definition isWhiteSpace (c : N) : bool :=
  bool_decide (c ∈ [9; 10; 11; 12; 13; 32; 160; 5760; 8232; 8233; 8239; 8287;
                    12288; 65279]%N)
  || ((8192 <=? c)%N && (c <=? 8202)%N).

Fixpoint trimStart (s : jsstring) : jsstring :=
  match s with
  | c :: s' => if isWhiteSpace c then trimStart s' else s
  | [] => []
  end.

Definition trimEnd (s : jsstring) : jsstring := reverse (trimStart (reverse s)).

Definition trim (s : jsstring) : jsstring := trimEnd (trimStart s).

(** [s.slice(0, n)] *)
Definition slice0 (n : nat) (s : jsstring) : jsstring := take n s.

(** [a || b] on strings: the empty string is the only falsy string. *)
Definition orElse (a b : jsstring) : jsstring :=
  match a with [] => b | _ => a end.

(** ** Values received from a client *)

Inductive value : Type :=
  | VUndefined
  | VNull
  | VBool (b : bool)
  | VNumber (n : float)
  | VString (s : jsstring)
  | VObject (props : list (jsstring * value)).

Fixpoint assoc {A} (k : jsstring) (l : list (jsstring * A)) : option A :=
  match l with
  | [] => None
  | (k', v) :: l' => if decide (k' = k) then Some v else assoc k l'
  end.

(** [payload?.key]: [undefined] on [null]/[undefined] and on a missing
    property.  None of the keys read by the server is a property of a
    primitive's prototype. *)
Definition prop (payload : value) (key : string) : value :=
  match payload with
  | VObject props => default VUndefined (assoc (lit key) props)
  | _ => VUndefined
  end.

(** [v ?? null] *)
Definition nullish (v : value) : value :=
  match v with
  | VUndefined | VNull => VNull
  | _ => v
  end.

(** [typeof v === 'string' ? v : dflt] *)
Definition stringOr (v : value) (dflt : jsstring) : jsstring :=
  match v with VString s => s | _ => dflt end.

(** ** Hue allocator *)

Module Meta.
Record t : Type := mk {
  color : jsstring;
  hue : option Z;   (* [None]: [typeof meta.hue !== 'number'] *)
  name : jsstring
}.
End Meta.

(** [connectedSockets]: socket id to metadata, in insertion order. *)
Abbreviation registry := (list (jsstring * Meta.t)).

Definition makeColorFromHue (hue : Z) : jsstring :=
  lit "hsl(" ++ numToString hue ++ lit " 90% 50%)".

Definition isDigit (c : N) : bool := (48 <=? c)%N && (c <=? 57)%N.

(** Case-insensitive match of one ASCII letter given in lower case. *)
Definition isLetter (lower : N) (c : N) : bool :=
  bool_decide (c = lower) || bool_decide (c = (lower - 32)%N).

(** Greedy [\d{1,3}] at the head of [s]. *)
Fixpoint takeDigits (n : nat) (s : jsstring) : jsstring :=
  match n, s with
  | S n', c :: s' => if isDigit c then c :: takeDigits n' s' else []
  | _, _ => []
  end.

(** The regular expression [/hsl\(\s*(\d{1,3})/i] anchored at the head of
    [s]; the result is capture group 1. *)
Definition matchHslAt (s : jsstring) : option (jsstring) :=
  match s with
  | h :: s0 :: l :: p :: rest =>
      if isLetter 104 h && isLetter 115 s0 && isLetter 108 l
         && bool_decide (p = 40%N)
      then match takeDigits 3 (trimStart rest) with
           | [] => None
           | ds => Some ds
           end
      else None
  | _ => None
  end.

(** [color.match(/hsl\(\s*(\d{1,3})/i)]: leftmost match. *)
Fixpoint matchHsl (s : jsstring) : option (jsstring) :=
  match s with
  | [] => None
  | _ :: s' =>
      match matchHslAt s with
      | Some ds => Some ds
      | None => matchHsl s'
      end
  end.

(** [Number(m[1])] for a string of decimal digits. *)
Definition digitsToZ (ds : jsstring) : Z :=
  foldl (λ acc c, 10 * acc + (Z.of_N c - 48)) 0 ds.

Definition parseHueFromColorString (color : jsstring) : option Z :=
  match matchHsl color with
  | None => None
  | Some ds => Some (Z.max 0 (Z.min 359 (digitsToZ ds)))
  end.

Definition getUsedHues (connected : registry) : gset Z :=
  foldl (λ (used : gset Z) (entry : jsstring * Meta.t),
           match Meta.hue entry.2 with
           | Some h => {[h]} ∪ used
           | None =>
               match Meta.color entry.2 with
               | [] => used
               | _ => match parseHueFromColorString (Meta.color entry.2) with
                      | Some parsed => {[parsed]} ∪ used
                      | None => used
                      end
               end
           end) ∅ connected.

Definition golden : Z := 137.

(** The [for] loop of [assignUniqueHue]: [n] iterations remain, the loop
    variable is [i]. *)
Fixpoint probe (used : gset Z) (hueSeed : Z) (n : nat) (i : Z) : option Z :=
  match n with
  | O => None
  | S n' =>
      let hue := Z.rem (hueSeed + i * golden) 360 in
      if decide (hue ∈ used) then probe used hueSeed n' (i + 1) else Some hue
  end.


(** ** Server state and outbound messages *)

Module Stroke.
(** The [safePayload] object built by the [draw] handler. *)
Record t : Type := mk {
  x : value;
  y : value;
  prevX : value;
  prevY : value;
  color : jsstring;
  lineWidth : float;
  username : jsstring;
  authorId : jsstring
}.
End Stroke.

Record state : Type := mkState {
  hueSeed : Z;
  connectedSockets : registry;
  strokes : list Stroke.t
}.

(** Who an emission is addressed to: [socket.emit], [io.emit],
    [socket.broadcast.emit]. *)
Inductive target : Type :=
  | ToSocket (id : jsstring)
  | ToAll
  | ToOthers (id : jsstring).

Inductive message : Type :=
  | MInit (color name : jsstring)
  | MBoardState (strokes : list Stroke.t)
  | MUsers (count : nat)
  | MPresence (count : nat) (users : list (jsstring * jsstring * jsstring))
  | MDraw (stroke : Stroke.t)
  | MClear.

Definition emission : Type := target * message.

(** Does the client [id] receive an emission addressed to [t]? *)
Definition receives (id : jsstring) (t : target) : bool :=
  match t with
  | ToSocket id' => bool_decide (id' = id)
  | ToAll => true
  | ToOthers id' => negb (bool_decide (id' = id))
  end.

(** The messages delivered to client [id], in emission order. *)
Definition delivered (id : jsstring) (out : list emission) : list message :=
  snd <$> filter (λ e : emission, receives id e.1 = true) out.

(** *** The handler monad *)

Definition M (A : Type) : Type := state → A * state * list emission.

#[global] Instance M_ret : MRet M := λ A a st, (a, st, []).

#[global] Instance M_bind : MBind M := λ A B k m st,
  let '(a, st1, out1) := m st in
  let '(b, st2, out2) := k a st1 in
  (b, st2, out1 ++ out2).

Definition getSeed : M Z := λ st, (hueSeed st, st, []).
Definition setSeed (s : Z) : M unit :=
  λ st, (tt, mkState s (connectedSockets st) (strokes st), []).
Definition getSockets : M registry :=
  λ st, (connectedSockets st, st, []).
Definition setSockets (c : registry) : M unit :=
  λ st, (tt, mkState (hueSeed st) c (strokes st), []).
Definition getStrokes : M (list Stroke.t) := λ st, (strokes st, st, []).
Definition setStrokes (l : list Stroke.t) : M unit :=
  λ st, (tt, mkState (hueSeed st) (connectedSockets st) l, []).
Definition emit (t : target) (m : message) : M unit :=
  λ st, (tt, st, [(t, m)]).

(** *** [Map] operations on the registry *)

Definition mapGet (id : jsstring) (c : registry) : option Meta.t :=
  assoc id c.

(** [Map.prototype.set]: an existing key keeps its position. *)
Fixpoint mapSet (id : jsstring) (m : Meta.t) (c : registry) : registry :=
  match c with
  | [] => [(id, m)]
  | (k, v) :: c' => if decide (k = id) then (k, m) :: c' else (k, v) :: mapSet id m c'
  end.

Definition mapDelete (id : jsstring) (c : registry) : registry :=
  filter (λ e : jsstring * Meta.t, e.1 ≠ id) c.

(** ** [assignUniqueHue]

    [rnd] is the value of [Math.floor(Math.random() * 360)] in the fallback. *)
Definition assignUniqueHue (connected : registry) (rnd : Z) : M Z :=
  let used := getUsedHues connected in
  seed ← getSeed;
  match probe used seed 360 0 with
  | Some hue => setSeed (Z.rem (hue + golden) 360) ;; mret hue
  | None => mret rnd
  end.

(** ** Broadcast helpers *)

Definition broadcastUsersCount : M unit :=
  c ← getSockets;
  emit ToAll (MUsers (length c)).

Definition broadcastPresence : M unit :=
  c ← getSockets;
  let users := (λ e : jsstring * Meta.t, (e.1, Meta.name e.2, Meta.color e.2)) <$> c in
  emit ToAll (MPresence (length users) users).

Definition emitBoardState (t : target) : M unit :=
  s ← getStrokes;
  emit t (MBoardState s).

(** [`User-${Math.floor(1000 + Math.random() * 9000)}`], [rnd] being the
    value of the [Math.floor]. *)
Definition placeholderName (rnd : Z) : jsstring := lit "User-" ++ numToString rnd.

(** ** The handlers installed by [io.on('connection', ...)] *)

(** [o || dflt] where [o] is [meta?.field]: [None] is [undefined]. *)
Definition optOrElse (o : option jsstring) (dflt : jsstring) : jsstring :=
  match o with
  | Some s => orElse s dflt
  | None => dflt
  end.

(** [!v] for [v] a string or [null]/[undefined] ([None]). *)
Definition falsy (o : option jsstring) : bool :=
  match o with
  | None | Some [] => true
  | Some (_ :: _) => false
  end.

Definition onConnection (id : jsstring) (rndHue rndName : Z) : M unit :=
  c ← getSockets;
  hue ← assignUniqueHue c rndHue;
  let color := makeColorFromHue hue in
  let defaultName := placeholderName rndName in
  setSockets (mapSet id (Meta.mk color (Some hue) defaultName) c) ;;
  emit (ToSocket id) (MInit color defaultName) ;;
  emitBoardState (ToSocket id) ;;
  broadcastUsersCount ;;
  broadcastPresence.

Definition onRequestBoardState (id : jsstring) : M unit :=
  emitBoardState (ToSocket id).

Definition sanitizeName (payload : value) (rndName : Z) : jsstring :=
  let rawName := stringOr (prop payload "name") [] in
  orElse (slice0 24 (trim rawName)) (placeholderName rndName).

Definition onSetName (id : jsstring) (payload : value) (rndName : Z) : M unit :=
  let sanitized := sanitizeName payload rndName in
  c ← getSockets;
  match mapGet id c with
  | Some meta =>
      setSockets (mapSet id (Meta.mk (Meta.color meta) (Meta.hue meta) sanitized) c) ;;
      broadcastPresence
  | None => mret tt
  end.

Definition safePayload (id : jsstring) (meta : option Meta.t) (payload : value)
  : Stroke.t :=
  {| Stroke.x := prop payload "x";
     Stroke.y := prop payload "y";
     Stroke.prevX := nullish (prop payload "prevX");
     Stroke.prevY := nullish (prop payload "prevY");
     Stroke.color := optOrElse (Meta.color <$> meta) (lit "#3333ff");
     Stroke.lineWidth :=
       match prop payload "lineWidth" with VNumber n => n | _ => 4%float end;
     Stroke.username := optOrElse (Meta.name <$> meta) (lit "User");
     Stroke.authorId := id |}.

Definition onDraw (id : jsstring) (payload : value) : M unit :=
  c ← getSockets;
  let stroke := safePayload id (mapGet id c) payload in
  s ← getStrokes;
  setStrokes (s ++ [stroke]) ;;
  emit (ToOthers id) (MDraw stroke).

(** The predicate of the [filter] in [clear] and [clearMine]:
    [s.authorId !== socket.id && s.username !== meta?.name && s.color !== myColor].
    A string is never strictly equal to [undefined] ([None]). *)
Definition notMine (id : jsstring) (meta : option Meta.t) (s : Stroke.t) : Prop :=
  Stroke.authorId s ≠ id
  ∧ Some (Stroke.username s) ≠ (Meta.name <$> meta)
  ∧ Some (Stroke.color s) ≠ (Meta.color <$> meta).

#[global] Instance notMine_dec id meta s : Decision (notMine id meta s).
Proof. unfold notMine. apply _. Defined.

Definition onClear (id : jsstring) : M unit :=
  c ← getSockets;
  let meta := mapGet id c in
  s ← getStrokes;
  setStrokes (filter (notMine id meta) s) ;;
  emitBoardState ToAll.

Definition onClearMine (id : jsstring) : M unit :=
  c ← getSockets;
  let meta := mapGet id c in
  s ← getStrokes;
  setStrokes (filter (notMine id meta) s) ;;
  emitBoardState ToAll.

Definition onClearByColor (payload : value) : M unit :=
  let color := match prop payload "color" with VString c => Some c | _ => None end in
  if falsy color then mret tt
  else
    s ← getStrokes;
    setStrokes (filter (λ s, Some (Stroke.color s) ≠ color) s) ;;
    emitBoardState ToAll.

Definition onClearByUsername (payload : value) : M unit :=
  let name :=
    match prop payload "username" with VString u => trim u | _ => [] end in
  if falsy (Some name) then mret tt
  else
    s ← getStrokes;
    setStrokes (filter (λ s, trim (orElse (Stroke.username s) []) ≠ name) s) ;;
    emitBoardState ToAll.

Definition onClearByAuthor (payload : value) : M unit :=
  let authorId := stringOr (prop payload "authorId") [] in
  if falsy (Some authorId) then mret tt
  else
    s ← getStrokes;
    setStrokes (filter (λ s, Stroke.authorId s ≠ authorId) s) ;;
    emitBoardState ToAll.

Definition onRequestClearAll : M unit :=
  setStrokes [] ;;
  emit ToAll MClear ;;
  emitBoardState ToAll.

(** [freeHueFor] reads the registry and does nothing else. *)
Definition freeHueFor (id : jsstring) : M unit :=
  c ← getSockets;
  match mapGet id c with
  | None => mret tt
  | Some _ => mret tt
  end.

Definition onDisconnect (id : jsstring) : M unit :=
  c ← getSockets;
  setSockets (mapDelete id c) ;;
  freeHueFor id ;;
  broadcastUsersCount ;;
  broadcastPresence.

(** ** Inbound events and the dispatcher *)

Inductive event : Type :=
  | Connection (id : jsstring) (rndHue rndName : Z)
  | RequestBoardState (id : jsstring)
  | SetName (id : jsstring) (payload : value) (rndName : Z)
  | Draw (id : jsstring) (payload : value)
  | Clear (id : jsstring)
  | ClearMine (id : jsstring)
  | ClearByColor (id : jsstring) (payload : value)
  | ClearByUsername (id : jsstring) (payload : value)
  | ClearByAuthor (id : jsstring) (payload : value)
  | RequestClearAll (id : jsstring)
  | Disconnect (id : jsstring).

Definition handle (ev : event) : M unit :=
  match ev with
  | Connection id rndHue rndName => onConnection id rndHue rndName
  | RequestBoardState id => onRequestBoardState id
  | SetName id payload rndName => onSetName id payload rndName
  | Draw id payload => onDraw id payload
  | Clear id => onClear id
  | ClearMine id => onClearMine id
  | ClearByColor _ payload => onClearByColor payload
  | ClearByUsername _ payload => onClearByUsername payload
  | ClearByAuthor _ payload => onClearByAuthor payload
  | RequestClearAll _ => onRequestClearAll
  | Disconnect id => onDisconnect id
  end.

(** One event handled to completion: the new state and what was emitted. *)
Definition step (st : state) (ev : event) : state * list emission :=
  let '(_, st', out) := handle ev st in (st', out).

Definition after (st : state) (ev : event) : state := (step st ev).1.
Definition emitted (st : state) (ev : event) : list emission := (step st ev).2.

(** The events of a trace, handled in arrival order. *)
Definition run (st : state) (evs : list event) : state := foldl after st evs.

(** The server right after start-up; [seed] is
    [Math.floor(Math.random() * 360)]. *)
Definition initial (seed : Z) : state := mkState seed [] [].

(** * Vocabulary of the properties *)

(** The hue one registry entry contributes in [getUsedHues]. *)
Definition usedHueOf (m : Meta.t) : option Z :=
  match Meta.hue m with
  | Some h => Some h
  | None =>
      match Meta.color m with
      | [] => None
      | _ => parseHueFromColorString (Meta.color m)
      end
  end.

(** The [hue] fields of the registry, in insertion order. *)
Definition heldHues (c : registry) : list (option Z) :=
  (λ e : jsstring * Meta.t, Meta.hue e.2) <$> c.

(** The set of hues held by the registry entries: their numeric [hue]
    fields, read off the registry without the allocator. *)
Definition heldHueSet (c : registry) : gset Z :=
  list_to_set (omap (λ e : jsstring * Meta.t, Meta.hue e.2) c).

(** The three-field test of [clearMine] against an identity: the stroke
    differs from it in author id, in author name and in colour. *)
Definition differsFrom (id name color : jsstring) (s : Stroke.t) : Prop :=
  Stroke.authorId s ≠ id ∧ Stroke.username s ≠ name ∧ Stroke.color s ≠ color.

#[global] Instance differsFrom_dec id name color s :
  Decision (differsFrom id name color s).
Proof. unfold differsFrom. apply _. Defined.

(** A field of a payload is absent: missing ([undefined]) or [null]. *)
Definition absent (v : value) : Prop := v = VUndefined ∨ v = VNull.

(** A selective clear whose argument is missing, not a string, or empty
    (after trimming, for a user name). *)
Definition invalidArg (ev : event) : bool :=
  match ev with
  | ClearByColor _ payload =>
      match prop payload "color" with VString (_ :: _) => false | _ => true end
  | ClearByUsername _ payload =>
      match prop payload "username" with
      | VString u => match trim u with [] => true | _ => false end
      | _ => true
      end
  | ClearByAuthor _ payload =>
      match prop payload "authorId" with VString (_ :: _) => false | _ => true end
  | _ => false
  end.

(** The events that remove strokes. *)
Definition isClearing (ev : event) : bool :=
  match ev with
  | Clear _ | ClearMine _ | ClearByColor _ _ | ClearByUsername _ _
  | ClearByAuthor _ _ | RequestClearAll _ => true
  | _ => false
  end.

(** The strokes the [draw] handlers of a trace push, in arrival order. *)
Fixpoint appended (st : state) (evs : list event) : list Stroke.t :=
  match evs with
  | [] => []
  | ev :: rest =>
      match ev with
      | Draw id payload => [safePayload id (mapGet id (connectedSockets st)) payload]
      | _ => []
      end ++ appended (after st ev) rest
  end.

(** The hue each connection of a sequence of connects is assigned: what
    its call of [assignUniqueHue] returns. *)
Fixpoint assignedHues (st : state) (conns : list (jsstring * Z * Z)) : list Z :=
  match conns with
  | [] => []
  | (id, rndHue, rndName) :: rest =>
      (assignUniqueHue (connectedSockets st) rndHue st).1.1
      :: assignedHues (after st (Connection id rndHue rndName)) rest
  end.

(** The [k]-th candidate probed from the start-up seed [seed0]. *)
Definition candidate (seed0 k : Z) : Z := (seed0 + k * golden) mod 360.

(** After [k] connects and no disconnect: the seed is the [k]-th candidate
    and only earlier candidates are in use. *)
Definition afterConnects (seed0 k : Z) (st : state) : Prop :=
  hueSeed st = candidate seed0 k
  ∧ ∀ h, h ∈ getUsedHues (connectedSockets st) →
         ∃ j, 0 ≤ j < k ∧ h = candidate seed0 j.

(** The states the server goes through when a connection is only accepted
    while fewer than 360 are live. *)
Inductive reachable : state → Prop :=
  | reachable_initial seed :
      0 ≤ seed < 360 → reachable (initial seed)
  | reachable_step st ev :
      reachable st →
      (∀ id rndHue rndName, ev = Connection id rndHue rndName →
         (length (connectedSockets st) < 360)%nat) →
      reachable (after st ev).

(** What every reachable state satisfies: the seed is a hue, the registry
    has one entry per connection id, every entry has a numeric hue, and no
    hue is held twice. *)
Definition registryInvariant (st : state) : Prop :=
  0 ≤ hueSeed st < 360
  ∧ NoDup (connectedSockets st).*1
  ∧ NoDup (heldHues (connectedSockets st))
  ∧ Forall (λ e : jsstring * Meta.t, is_Some (Meta.hue e.2)) (connectedSockets st).

(** * Sample data *)

Definition alice : jsstring := lit "sockA".
Definition bob : jsstring := lit "sockB".

Definition num (key : string) (n : float) : jsstring * value := (lit key, VNumber n).

(** The segment (10,10)-(20,20) of width 4, a dot (no previous point), and a
    segment that starts at the origin (previous point 0, 0). *)
Definition segment : value :=
  VObject [num "x" 20; num "y" 20; num "prevX" 10; num "prevY" 10; num "lineWidth" 4].
Definition dot : value :=
  VObject [num "x" 5; num "y" 7; (lit "prevX", VNull); num "lineWidth" 2].
Definition fromOrigin : value :=
  VObject [num "x" 3; num "y" 4; num "prevX" 0; num "prevY" 0].

Definition named (name : string) : value := VObject [(lit "name", VString (lit name))].

(** Two clients connected, each having drawn. *)
Definition twoClients : state :=
  run (initial 350)
    [Connection alice 0 1234; Draw alice segment;
     Connection bob 0 4321; Draw bob dot; Draw alice fromOrigin].

(** * Vocabulary of the further properties *)

(** The list of users that [broadcastPresence] sends. *)
Definition presenceOf (c : registry) : list (jsstring * jsstring * jsstring) :=
  (λ e : jsstring * Meta.t, (e.1, Meta.name e.2, Meta.color e.2)) <$> c.

(** A string whose first code unit is not white space (so it is not empty
    and [trim] leaves something of it). *)
Definition startsVisible (s : jsstring) : Prop :=
  match s with
  | c :: _ => isWhiteSpace c = false
  | [] => False
  end.

(** The shape of the registry and of the log in every state of a run: one
    entry per socket id, each with a numeric hue, the colour made from it and
    a name that starts with a visible character; every stroke carries such a
    name and a colour. *)
Definition wellFormed (st : state) : Prop :=
  NoDup (connectedSockets st).*1
  ∧ Forall (λ e : jsstring * Meta.t,
              (∃ h, Meta.hue e.2 = Some h ∧ Meta.color e.2 = makeColorFromHue h)
              ∧ startsVisible (Meta.name e.2)) (connectedSockets st)
  ∧ Forall (λ s, startsVisible (Stroke.username s) ∧ Stroke.color s ≠ [])
      (strokes st).

(** Every registry entry holds a hue of [0, 360) and the colour made from
    it. *)
Definition huesEncoded (c : registry) : Prop :=
  Forall (λ e : jsstring * Meta.t,
            ∃ h, Meta.hue e.2 = Some h ∧ 0 ≤ h < 360
                 ∧ Meta.color e.2 = makeColorFromHue h) c.

(** The strokes a clearing event keeps, given the registry: the predicate of
    the handler's [filter]; an event that returns before filtering keeps
    everything, [requestClearAll] nothing. *)
Definition keeps (c : registry) (ev : event) (s : Stroke.t) : Prop :=
  match ev with
  | Clear id | ClearMine id => notMine id (mapGet id c) s
  | ClearByColor _ payload =>
      match prop payload "color" with
      | VString (c0 :: cs) => Stroke.color s ≠ c0 :: cs
      | _ => True
      end
  | ClearByUsername _ payload =>
      match prop payload "username" with
      | VString u =>
          match trim u with
          | [] => True
          | name => trim (Stroke.username s) ≠ name
          end
      | _ => True
      end
  | ClearByAuthor _ payload =>
      match prop payload "authorId" with
      | VString (c0 :: cs) => Stroke.authorId s ≠ c0 :: cs
      | _ => True
      end
  | RequestClearAll _ => False
  | _ => True
  end.

#[global] Instance keeps_dec c ev s : Decision (keeps c ev s).
Proof. destruct ev; simpl; repeat case_match; apply _. Defined.

(** A registry in which 360 clients hold the 360 hues: client [k] holds the
    [k]-th candidate from seed 0. *)
Definition packed : registry :=
  (λ k, (numToString k,
         Meta.mk (makeColorFromHue (candidate 0 k)) (Some (candidate 0 k))
           (placeholderName 1000))) <$> seqZ 0 360.

Definition fullHouse : state := mkState 0 packed [].

(** * Properties of the hue allocator *)

Section probe_facts.
Variables (used : gset Z) (seed : Z).

(** The loop returns the first candidate outside [used]. *)
Lemma probe_Some n i h :
  probe used seed n i = Some h →
  (h ∉ used) ∧ ∃ j, i ≤ j < i + Z.of_nat n ∧ h = Z.rem (seed + j * golden) 360.
Proof.
  revert i. induction n as [|n IH]; intros i; simpl; [done|].
  case_decide as Hin.
  - intros Hp. destruct (IH _ Hp) as [Hh (j & Hj & Hhj)].
    split; [done|]. exists j. split; [lia|done].
  - intros [= <-]. split; [done|]. exists i. split; [lia|done].
Qed.

(** It falls through only when every candidate is taken. *)
Lemma probe_None n i :
  probe used seed n i = None →
  ∀ j, i ≤ j < i + Z.of_nat n → Z.rem (seed + j * golden) 360 ∈ used.
Proof.
  revert i. induction n as [|n IH]; intros i; simpl; [lia|].
  case_decide as Hin; [|done].
  intros Hp j Hj. destruct (decide (j = i)) as [->|Hne]; [done|].
  apply (IH _ Hp). lia.
Qed.

(** When the seed itself is free it is returned at once. *)
Lemma probe_seed_free n :
  Z.rem seed 360 ∉ used → probe used seed (S n) 0 = Some (Z.rem seed 360).
Proof.
  intros Hfree. simpl. rewrite Z.add_0_r. by rewrite decide_False.
Qed.
End probe_facts.

Arguments probe : simpl never.

(** 137 is invertible modulo 360 (137 * 113 = 43 * 360 + 1), so the
    candidates [seed + j * 137] for [j] in [0, 360) reach every residue. *)
Lemma golden_covers seed r :
  0 ≤ seed → 0 ≤ r < 360 →
  ∃ j, 0 ≤ j < 360 ∧ Z.rem (seed + j * golden) 360 = r.
Proof.
  intros Hseed Hr. set (k := 113 * (r - seed)).
  exists (k mod 360).
  assert (0 ≤ k mod 360 < 360) as Hj by (apply Z.mod_pos_bound; lia).
  split; [done|].
  rewrite Z.rem_mod_nonneg by (unfold golden; lia).
  pose proof (Z.div_mod k 360 ltac:(lia)) as Hk.
  replace (seed + k mod 360 * golden)
    with (r + (43 * (r - seed) - 137 * (k `div` 360)) * 360)
    by (unfold golden, k in *; lia).
  rewrite Z_mod_plus_full. apply Z.mod_small. lia.
Qed.

(** Two candidates less than 360 steps apart differ. *)
Lemma golden_inj seed j k :
  0 ≤ j < 360 → 0 ≤ k < 360 →
  (seed + j * golden) mod 360 = (seed + k * golden) mod 360 → j = k.
Proof.
  intros Hj Hk Heq.
  pose proof (Z.div_mod (seed + j * golden) 360 ltac:(lia)) as H1.
  pose proof (Z.div_mod (seed + k * golden) 360 ltac:(lia)) as H2.
  rewrite Heq in H1. unfold golden in *. lia.
Qed.

Lemma probe_finds used seed :
  0 ≤ seed → (size used < 360)%nat → is_Some (probe used seed 360 0).
Proof.
  intros Hseed Hsize. destruct (probe used seed 360 0) eqn:Hp; [by eauto|].
  exfalso.
  assert (list_to_set (seqZ 0 360) ⊆ used) as Hsub.
  { intros r Hr. apply elem_of_list_to_set, elem_of_seqZ in Hr.
    destruct (golden_covers seed r) as (j & Hj & <-); [lia..|].
    eapply probe_None; [exact Hp|lia]. }
  apply subseteq_size in Hsub.
  rewrite size_list_to_set in Hsub by apply NoDup_seqZ.
  rewrite length_seqZ in Hsub. lia.
Qed.

(** What [assignUniqueHue] does while a hue is free: it returns a free hue
    of [0, 360), moves the seed one step past it and emits nothing. *)
Lemma assignUniqueHue_free connected rnd st :
  0 ≤ hueSeed st → (size (getUsedHues connected) < 360)%nat →
  ∃ h, assignUniqueHue connected rnd st
       = (h, mkState (Z.rem (h + golden) 360) (connectedSockets st) (strokes st), [])
       ∧ 0 ≤ h < 360 ∧ h ∉ getUsedHues connected.
Proof.
  intros Hseed Hsize. unfold assignUniqueHue, mbind, M_bind, getSeed.
  destruct (probe_finds (getUsedHues connected) (hueSeed st)) as [h Hp]; [done|lia|].
  rewrite Hp. exists h. split; [done|].
  apply probe_Some in Hp as [Hfree (j & Hj & ->)]. split; [|done].
  apply Z.rem_bound_pos; unfold golden; lia.
Qed.

(** * The registry as a [Map] *)

Section registry_facts.
Implicit Types (c : registry) (id : jsstring) (m : Meta.t).

Lemma mapGet_mapSet id m c : mapGet id (mapSet id m c) = Some m.
Proof.
  unfold mapGet. induction c as [|[k v] c IH]; simpl.
  - by rewrite decide_True.
  - destruct (decide (k = id)) as [->|Hne]; simpl.
    + by rewrite decide_True.
    + by rewrite decide_False.
Qed.

Lemma mapGet_mapSet_ne id id' m c :
  id ≠ id' → mapGet id' (mapSet id m c) = mapGet id' c.
Proof.
  intros Hne. unfold mapGet. induction c as [|[k v] c IH]; simpl.
  - by rewrite decide_False.
  - destruct (decide (k = id)) as [->|Hk]; simpl.
    + by rewrite !decide_False.
    + by rewrite IH.
Qed.

Lemma elem_of_mapSet id m c e :
  e ∈ mapSet id m c → e = (id, m) ∨ e ∈ c.
Proof.
  induction c as [|[k v] c IH]; simpl.
  - rewrite list_elem_of_singleton. auto.
  - destruct (decide (k = id)) as [->|Hk]; rewrite !elem_of_cons.
    + intros [->|He]; auto.
    + intros [->|He]; [auto|]. destruct (IH He); auto.
Qed.

Lemma mapGet_elem_of id m c : mapGet id c = Some m → (id, m) ∈ c.
Proof.
  unfold mapGet. induction c as [|[k v] c IH]; simpl; [done|].
  destruct (decide (k = id)) as [->|Hk].
  - intros [= ->]. apply elem_of_cons; auto.
  - intros H. apply elem_of_cons; auto.
Qed.

Lemma elem_of_mapGet id m c : NoDup c.*1 → (id, m) ∈ c → mapGet id c = Some m.
Proof.
  unfold mapGet. induction c as [|[k v] c IH]; simpl.
  - intros _ H. by apply elem_of_nil in H.
  - rewrite NoDup_cons, elem_of_cons. intros [Hk Hnd] [Heq|Hin].
    + injection Heq as <- <-. by rewrite decide_True.
    + rewrite decide_False; [by apply IH|].
      intros ->. apply Hk. apply list_elem_of_fmap. by exists (id, m).
Qed.

(** [set] keeps the keys, or appends the new one. *)
Lemma mapSet_keys id m c :
  (mapSet id m c).*1 = if decide (id ∈ c.*1) then c.*1 else c.*1 ++ [id].
Proof.
  induction c as [|[k v] c IH]; csimpl.
  - done.
  - destruct (decide (k = id)) as [->|Hk]; csimpl.
    + rewrite decide_True; [done|]. apply elem_of_cons; auto.
    + rewrite IH. destruct (decide (id ∈ c.*1)) as [Hin|Hin].
      * rewrite decide_True; [done|]. apply elem_of_cons; auto.
      * rewrite decide_False; [done|]. rewrite elem_of_cons.
        intros [->|?]; done.
Qed.

Lemma mapSet_keys_NoDup id m c : NoDup c.*1 → NoDup (mapSet id m c).*1.
Proof.
  intros Hnd. rewrite mapSet_keys. case_decide as Hin; [done|].
  apply NoDup_app. split_and!; [done| |apply NoDup_singleton].
  intros k Hk ->%list_elem_of_singleton. done.
Qed.

Lemma mapDelete_keys_NoDup id c : NoDup c.*1 → NoDup (mapDelete id c).*1.
Proof.
  intros Hnd. eapply sublist_NoDup; [exact Hnd|].
  apply fmap_sublist, sublist_filter.
Qed.

Lemma mapSet_heldHues_NoDup id m c :
  NoDup (heldHues c) → Meta.hue m ∉ heldHues c →
  NoDup (heldHues (mapSet id m c)).
Proof.
  unfold heldHues. induction c as [|[k v] c IH]; simpl.
  - intros _ _. apply NoDup_singleton.
  - rewrite NoDup_cons, not_elem_of_cons. intros [Hv Hnd] [Hmv Hm].
    destruct (decide (k = id)) as [->|Hk]; simpl; apply NoDup_cons.
    + done.
    + split; [|by apply IH].
      intros (e & He & [->| Hin]%elem_of_mapSet)%list_elem_of_fmap.
      * simpl in He. congruence.
      * apply Hv. apply list_elem_of_fmap. by exists e.
Qed.

(** Overwriting an entry with one of the same hue leaves the hues as
    they are (what [setName] does). *)
Lemma mapSet_heldHues_same id m m' c :
  mapGet id c = Some m → Meta.hue m' = Meta.hue m →
  heldHues (mapSet id m' c) = heldHues c.
Proof.
  unfold heldHues, mapGet. induction c as [|[k v] c IH]; csimpl; [done|].
  destruct (decide (k = id)) as [->|Hk]; csimpl.
  - intros [= ->] ->. done.
  - intros Hg Hh. by rewrite IH.
Qed.

Lemma mapDelete_heldHues_NoDup id c :
  NoDup (heldHues c) → NoDup (heldHues (mapDelete id c)).
Proof.
  intros Hnd. eapply sublist_NoDup; [exact Hnd|].
  apply fmap_sublist, sublist_filter.
Qed.

(** Membership in the set built by the loop of [getUsedHues]. *)
Lemma elem_of_getUsedHues c h :
  h ∈ getUsedHues c ↔ ∃ e, e ∈ c ∧ usedHueOf e.2 = Some h.
Proof.
  unfold getUsedHues.
  enough (∀ acc : gset Z,
    h ∈ foldl (λ (used : gset Z) (entry : jsstring * Meta.t),
         match Meta.hue entry.2 with
         | Some h => {[h]} ∪ used
         | None =>
             match Meta.color entry.2 with
             | [] => used
             | _ => match parseHueFromColorString (Meta.color entry.2) with
                    | Some parsed => {[parsed]} ∪ used
                    | None => used
                    end
             end
         end) acc c
    ↔ h ∈ acc ∨ ∃ e, e ∈ c ∧ usedHueOf e.2 = Some h) as Hgen.
  { rewrite Hgen. set_solver. }
  induction c as [|[k [col hu nm]] c IH]; intros acc; simpl.
  - split; [auto|]. intros [?|(e & He & _)]; [done|]. by apply elem_of_nil in He.
  - rewrite IH. unfold usedHueOf.
    split.
    + intros [Hacc|(e & He & Hu)].
      * destruct hu as [h'|]; simpl in *.
        { apply elem_of_union in Hacc as [Heq%elem_of_singleton|?]; [|by left].
          right. exists (k, Meta.mk col (Some h') nm). split; [left|].
          simpl. by rewrite Heq. }
        destruct col as [|c0 col]; [by left|].
        destruct (parseHueFromColorString (c0 :: col)) as [p|] eqn:Hp; [|by left].
        apply elem_of_union in Hacc as [Heq%elem_of_singleton|?]; [|by left].
        right. exists (k, Meta.mk (c0 :: col) None nm). split; [left|].
        simpl. by rewrite Hp, Heq.
      * right. exists e. split; [by right|done].
    + intros [Hacc|(e & [->|He]%elem_of_cons & Hu)].
      * left. destruct hu; simpl; [set_solver|].
        destruct col; [done|]. destruct (parseHueFromColorString _); set_solver.
      * left. simpl in *. destruct hu; simpl in *; [set_solver|].
        destruct col; [done|]. rewrite Hu. set_solver.
      * right. by exists e.
Qed.

Lemma size_list_to_set_le (l : list Z) :
  (size (list_to_set l : gset Z) ≤ length l)%nat.
Proof.
  induction l as [|z l IH]; [by rewrite list_to_set_nil, size_empty|].
  rewrite list_to_set_cons, size_union_alt, size_singleton.
  assert (size (list_to_set l ∖ {[z]} : gset Z) ≤ size (list_to_set l : gset Z))%nat
    as Hle by (apply subseteq_size, subseteq_difference_l; reflexivity).
  simpl. lia.
Qed.

(** Every entry adds at most one hue. *)
Lemma size_getUsedHues c : (size (getUsedHues c) ≤ length c)%nat.
Proof.
  assert (getUsedHues c ⊆ list_to_set (omap (λ e, usedHueOf e.2) c)) as Hsub.
  { intros h (e & He & Hu)%elem_of_getUsedHues.
    apply elem_of_list_to_set, list_elem_of_omap. by exists e. }
  apply subseteq_size in Hsub. etrans; [exact Hsub|].
  etrans; [apply size_list_to_set_le|].
  clear Hsub. induction c as [|e c IH]; csimpl; [done|].
  destruct (usedHueOf e.2); simpl; lia.
Qed.
End registry_facts.

(** * What the handlers do to the state and emit *)

Arguments lit : simpl never.
Arguments makeColorFromHue : simpl never.
Arguments placeholderName : simpl never.
Arguments trim : simpl never.

Ltac exec :=
  unfold after, emitted, step, handle,
    onConnection, onRequestBoardState, onSetName, onDraw, onClear, onClearMine,
    onClearByColor, onClearByUsername, onClearByAuthor, onRequestClearAll,
    onDisconnect, freeHueFor, broadcastUsersCount, broadcastPresence,
    emitBoardState, mbind, M_bind, mret, M_ret,
    getSeed, setSeed, getSockets, setSockets, getStrokes, setStrokes, emit;
  simpl.

Lemma step_Draw st id payload :
  step st (Draw id payload)
  = let stroke := safePayload id (mapGet id (connectedSockets st)) payload in
    (mkState (hueSeed st) (connectedSockets st) (strokes st ++ [stroke]),
     [(ToOthers id, MDraw stroke)]).
Proof. by exec. Qed.

Lemma step_ClearMine st id :
  step st (ClearMine id)
  = let log := filter (notMine id (mapGet id (connectedSockets st))) (strokes st) in
    (mkState (hueSeed st) (connectedSockets st) log, [(ToAll, MBoardState log)]).
Proof. by exec. Qed.

Lemma step_Clear st id : step st (Clear id) = step st (ClearMine id).
Proof. by exec. Qed.

Lemma step_RequestClearAll st id :
  step st (RequestClearAll id)
  = (mkState (hueSeed st) (connectedSockets st) [],
     [(ToAll, MClear); (ToAll, MBoardState [])]).
Proof. by exec. Qed.

Lemma step_RequestBoardState st id :
  step st (RequestBoardState id) = (st, [(ToSocket id, MBoardState (strokes st))]).
Proof. exec. by destruct st. Qed.

Lemma step_SetName st id payload rnd :
  step st (SetName id payload rnd)
  = match mapGet id (connectedSockets st) with
    | Some meta =>
        let c := mapSet id (Meta.mk (Meta.color meta) (Meta.hue meta)
                              (sanitizeName payload rnd)) (connectedSockets st) in
        (mkState (hueSeed st) c (strokes st),
         [(ToAll, MPresence (length c)
                    ((λ e : jsstring * Meta.t, (e.1, Meta.name e.2, Meta.color e.2)) <$> c))])
    | None => (st, [])
    end.
Proof.
  exec. destruct (mapGet id (connectedSockets st)); simpl.
  - by rewrite length_fmap.
  - by destruct st.
Qed.

Lemma step_Disconnect st id :
  step st (Disconnect id)
  = let c := mapDelete id (connectedSockets st) in
    (mkState (hueSeed st) c (strokes st),
     [(ToAll, MUsers (length c));
      (ToAll, MPresence (length c)
                ((λ e : jsstring * Meta.t, (e.1, Meta.name e.2, Meta.color e.2)) <$> c))]).
Proof.
  exec. destruct (mapGet id (mapDelete id (connectedSockets st))); simpl;
    by rewrite length_fmap.
Qed.

(** A connection: the hue is what [assignUniqueHue] returns, the seed is
    what it leaves. *)
Lemma step_Connection st id rndHue rndName :
  step st (Connection id rndHue rndName)
  = let '(hue, st1, _) := assignUniqueHue (connectedSockets st) rndHue st in
    let color := makeColorFromHue hue in
    let name := placeholderName rndName in
    let c := mapSet id (Meta.mk color (Some hue) name) (connectedSockets st) in
    (mkState (hueSeed st1) c (strokes st),
     [(ToSocket id, MInit color name);
      (ToSocket id, MBoardState (strokes st));
      (ToAll, MUsers (length c));
      (ToAll, MPresence (length c)
                ((λ e : jsstring * Meta.t, (e.1, Meta.name e.2, Meta.color e.2)) <$> c))]).
Proof.
  exec. unfold assignUniqueHue, mbind, M_bind, mret, M_ret, getSeed, setSeed.
  destruct (probe _ _ _ _); simpl; by rewrite length_fmap.
Qed.

(** Only [setName], [connection] and [disconnect] touch the registry, only
    [connection] the seed. *)
Lemma step_registry_unchanged st ev :
  match ev with
  | Connection _ _ _ | SetName _ _ _ | Disconnect _ => True
  | _ => connectedSockets (after st ev) = connectedSockets st
         ∧ hueSeed (after st ev) = hueSeed st
  end.
Proof.
  destruct ev; try done; exec; repeat case_match; by simplify_eq/=.
Qed.

Lemma step_ClearByColor st id payload :
  step st (ClearByColor id payload)
  = match prop payload "color" with
    | VString (c0 :: cs) =>
        let log := filter (λ s, Stroke.color s ≠ c0 :: cs) (strokes st) in
        (mkState (hueSeed st) (connectedSockets st) log, [(ToAll, MBoardState log)])
    | _ => (st, [])
    end.
Proof.
  exec. destruct (prop payload "color") as [| | | |[|c0 cs]|]; simpl; try done.
  rewrite (list_filter_iff _ (λ s, Stroke.color s ≠ c0 :: cs)); [done|].
  intros s; split; intros Hne ?; apply Hne; congruence.
Qed.

Lemma step_ClearByUsername st id payload :
  step st (ClearByUsername id payload)
  = match prop payload "username" with
    | VString u =>
        match trim u with
        | [] => (st, [])
        | name =>
            let log := filter (λ s, trim (Stroke.username s) ≠ name) (strokes st) in
            (mkState (hueSeed st) (connectedSockets st) log,
             [(ToAll, MBoardState log)])
        end
    | _ => (st, [])
    end.
Proof.
  exec. destruct (prop payload "username") as [| | | |u|]; simpl; try done.
  destruct (trim u) as [|c0 cs]; simpl; [done|].
  rewrite (list_filter_iff _ (λ s, trim (Stroke.username s) ≠ c0 :: cs)); [done|].
  intros s. by destruct (Stroke.username s).
Qed.

Lemma step_ClearByAuthor st id payload :
  step st (ClearByAuthor id payload)
  = match prop payload "authorId" with
    | VString (c0 :: cs) =>
        let log := filter (λ s, Stroke.authorId s ≠ c0 :: cs) (strokes st) in
        (mkState (hueSeed st) (connectedSockets st) log, [(ToAll, MBoardState log)])
    | _ => (st, [])
    end.
Proof.
  exec. by destruct (prop payload "authorId") as [| | | |[|c0 cs]|].
Qed.


(** * The clear variants *)

(** C2. After [clearMine], and after the legacy [clear], sent by a
    connection whose registry entry is [m], the stroke log holds exactly the
    earlier strokes, in their order, whose author id differs from the
    connection id and whose author name differs from [m]'s name and whose
    colour differs from [m]'s colour; a stroke matching any of the three is
    gone. *)
Theorem clearMine_keeps_exactly_the_strokes_differing_in_all_three st id m :
  mapGet id (connectedSockets st) = Some m →
  strokes (after st (ClearMine id))
    = filter (differsFrom id (Meta.name m) (Meta.color m)) (strokes st)
  ∧ strokes (after st (Clear id))
    = filter (differsFrom id (Meta.name m) (Meta.color m)) (strokes st)
  ∧ ∀ s, s ∈ strokes (after st (ClearMine id))
         ↔ s ∈ strokes st
           ∧ Stroke.authorId s ≠ id
           ∧ Stroke.username s ≠ Meta.name m
           ∧ Stroke.color s ≠ Meta.color m.
Proof.
  intros Hm.
  assert (strokes (after st (ClearMine id))
          = filter (differsFrom id (Meta.name m) (Meta.color m)) (strokes st))
    as Hlog.
  { unfold after. rewrite step_ClearMine, Hm. simpl.
    apply list_filter_iff. intros s. unfold notMine, differsFrom. simpl.
    split; intros (Ha & Hn & Hc); split_and!; congruence. }
  split_and!.
  - exact Hlog.
  - unfold after in *. by rewrite step_Clear.
  - intros s. rewrite Hlog, list_elem_of_filter. unfold differsFrom. tauto.
Qed.

Lemma clearMine_keeps_exactly_the_strokes_differing_in_all_three_witness :
  strokes (after twoClients (ClearMine bob)) = take 1 (strokes twoClients) ++ drop 2 (strokes twoClients).
Proof.
  destruct (clearMine_keeps_exactly_the_strokes_differing_in_all_three
              twoClients bob
              (Meta.mk (makeColorFromHue 127) (Some 127) (placeholderName 4321))
              eq_refl) as [-> _].
  vm_compute. reflexivity.
Defined.

(** C3. After [clearByColor] with a non-empty colour string [C], no stroke
    of the log has colour [C], and every earlier stroke of another colour is
    still there (the log is the earlier one without the strokes of colour
    [C], in the same order). *)
Theorem clearByColor_removes_exactly_that_color st id payload C :
  prop payload "color" = VString C → C ≠ [] →
  strokes (after st (ClearByColor id payload))
    = filter (λ s, Stroke.color s ≠ C) (strokes st)
  ∧ (∀ s, s ∈ strokes (after st (ClearByColor id payload)) → Stroke.color s ≠ C)
  ∧ (∀ s, s ∈ strokes st → Stroke.color s ≠ C →
          s ∈ strokes (after st (ClearByColor id payload))).
Proof.
  intros Hp HC. unfold after. rewrite step_ClearByColor, Hp.
  destruct C as [|c0 cs]; [done|]. simpl. split_and!.
  - done.
  - by intros s [? _]%list_elem_of_filter.
  - intros s Hin Hne. by apply list_elem_of_filter.
Qed.

Lemma clearByColor_removes_exactly_that_color_witness :
  strokes (after twoClients
             (ClearByColor bob (VObject [(lit "color", VString (makeColorFromHue 350))])))
  = take 1 (drop 1 (strokes twoClients)).
Proof.
  destruct (clearByColor_removes_exactly_that_color twoClients bob
              (VObject [(lit "color", VString (makeColorFromHue 350))])
              (makeColorFromHue 350) eq_refl) as [-> _].
  - vm_compute. discriminate.
  - vm_compute. reflexivity.
Defined.

(** C4. After [requestClearAll] the stroke log is empty, and every client,
    the requester included, is sent the [clear] signal and then a
    [boardState] with no stroke. *)
Theorem requestClearAll_wipes_log_and_tells_everyone st id :
  strokes (after st (RequestClearAll id)) = []
  ∧ emitted st (RequestClearAll id) = [(ToAll, MClear); (ToAll, MBoardState [])]
  ∧ ∀ client,
      delivered client (emitted st (RequestClearAll id)) = [MClear; MBoardState []].
Proof.
  unfold after, emitted. rewrite step_RequestClearAll. simpl.
  split_and!; [done..|]. intros client. reflexivity.
Qed.

(** C9. A selective clear whose argument is missing, not a string or empty
    (for [clearByUsername]: empty once trimmed) changes nothing and emits
    nothing. *)
Theorem invalid_selective_clear_is_a_noop st ev :
  invalidArg ev = true → step st ev = (st, []).
Proof.
  destruct ev as [| | | | | |id p|id p|id p| |]; simpl; try done; intros Hinv.
  - rewrite step_ClearByColor. by repeat case_match.
  - rewrite step_ClearByUsername. by repeat case_match.
  - rewrite step_ClearByAuthor. by repeat case_match.
Qed.

Lemma invalid_selective_clear_is_a_noop_witness :
  step twoClients (ClearByColor alice (VObject [(lit "color", VNumber 3)]))
    = (twoClients, [])
  ∧ step twoClients (ClearByUsername alice (VObject [(lit "username", VString (lit "  "))]))
    = (twoClients, [])
  ∧ step twoClients (ClearByAuthor alice VUndefined) = (twoClients, []).
Proof.
  split_and!; apply invalid_selective_clear_is_a_noop; reflexivity.
Defined.

(** * Strings *)

Lemma trimStart_split s :
  ∃ pre, s = pre ++ trimStart s ∧ Forall (λ c, isWhiteSpace c = true) pre.
Proof.
  induction s as [|c s (pre & Hs & Hpre)]; simpl.
  - by exists [].
  - destruct (isWhiteSpace c) eqn:Hc.
    + exists (c :: pre). split; [by rewrite Hs at 1|]. by constructor.
    + by exists [].
Qed.

Lemma trimStart_head s c : head (trimStart s) = Some c → isWhiteSpace c = false.
Proof.
  induction s as [|c' s IH]; simpl; [done|].
  destruct (isWhiteSpace c') eqn:Hc; [done|]. by intros [= <-].
Qed.

Lemma trimEnd_split s :
  ∃ post, s = trimEnd s ++ post ∧ Forall (λ c, isWhiteSpace c = true) post.
Proof.
  destruct (trimStart_split (reverse s)) as (pre & Hs & Hpre).
  exists (reverse pre). split; [|by apply Forall_reverse].
  unfold trimEnd. rewrite <- reverse_app, <- Hs. by rewrite reverse_involutive.
Qed.

Lemma trimEnd_last s c : last (trimEnd s) = Some c → isWhiteSpace c = false.
Proof. unfold trimEnd. rewrite last_reverse. apply trimStart_head. Qed.

(** [trim] drops a run of white space at each end, and what is left neither
    starts nor ends with white space. *)
Lemma trim_spec s :
  ∃ pre post,
    s = pre ++ trim s ++ post
    ∧ Forall (λ c, isWhiteSpace c = true) pre
    ∧ Forall (λ c, isWhiteSpace c = true) post
    ∧ (∀ c, head (trim s) = Some c → isWhiteSpace c = false)
    ∧ (∀ c, last (trim s) = Some c → isWhiteSpace c = false).
Proof.
  unfold trim.
  destruct (trimStart_split s) as (pre & Hs & Hpre).
  destruct (trimEnd_split (trimStart s)) as (post & Ht & Hpost).
  exists pre, post. split_and!; try done.
  - by rewrite <- Ht.
  - intros c Hc. apply (trimStart_head s). rewrite Ht.
    destruct (trimEnd (trimStart s)); [done|]. exact Hc.
  - apply trimEnd_last.
Qed.

Lemma placeholderName_nonempty rnd : placeholderName rnd ≠ [].
Proof. unfold placeholderName. discriminate. Qed.

(** [User-] and four digits. *)
Lemma placeholderName_length rnd :
  1000 ≤ rnd ≤ 9999 → length (placeholderName rnd) = 9%nat.
Proof.
  intros Hrnd.
  assert (Forall (λ r, length (placeholderName r) = 9%nat) (seqZ 1000 9000))
    as Hall by (apply (bool_decide_unpack _); vm_compute; exact I).
  rewrite Forall_forall in Hall. apply Hall, elem_of_seqZ. lia.
Qed.

(** * Renaming *)

(** C5. A [setName] with proposed name [P] from a connection in the
    registry stores [P] trimmed and cut to 24 code units, or, when that is
    empty, the generated placeholder; the stored name is never empty and
    never longer than 24; the stroke log, and so the author name recorded
    in every stroke, is untouched.  Trimming removes a run of white space
    at each end of [P] and leaves no white space at either end. *)
Theorem setName_stores_sanitized_name_and_keeps_strokes st id payload P rnd m :
  mapGet id (connectedSockets st) = Some m →
  prop payload "name" = VString P →
  1000 ≤ rnd ≤ 9999 →
  ∃ stored,
    mapGet id (connectedSockets (after st (SetName id payload rnd)))
      = Some (Meta.mk (Meta.color m) (Meta.hue m) stored)
    ∧ stored = (if decide (take 24 (trim P) = []) then placeholderName rnd
                else take 24 (trim P))
    ∧ placeholderName rnd ≠ []
    ∧ stored ≠ []
    ∧ (length stored ≤ 24)%nat
    ∧ strokes (after st (SetName id payload rnd)) = strokes st
    ∧ Stroke.username <$> strokes (after st (SetName id payload rnd))
      = Stroke.username <$> strokes st
    ∧ ∃ pre post,
        P = pre ++ trim P ++ post
        ∧ Forall (λ c, isWhiteSpace c = true) pre
        ∧ Forall (λ c, isWhiteSpace c = true) post
        ∧ (∀ c, head (trim P) = Some c → isWhiteSpace c = false)
        ∧ (∀ c, last (trim P) = Some c → isWhiteSpace c = false).
Proof.
  intros Hm HP Hrnd. unfold after. rewrite step_SetName, Hm. simpl.
  rewrite mapGet_mapSet. unfold sanitizeName, slice0. rewrite HP. simpl.
  eexists. split; [reflexivity|].
  pose proof (placeholderName_nonempty rnd) as Hne.
  pose proof (placeholderName_length rnd Hrnd) as Hlen.
  split_and!; try done.
  - by destruct (take 24 (trim P)).
  - by destruct (take 24 (trim P)).
  - unfold orElse. destruct (take 24 (trim P)) as [|c0 cs] eqn:Ht.
    + rewrite Hlen. lia.
    + rewrite <- Ht, length_take. lia.
  - apply trim_spec.
Qed.

Lemma setName_stores_sanitized_name_and_keeps_strokes_witness :
  ∃ stored,
    mapGet alice (connectedSockets (after twoClients (SetName alice (named "  Ada  ") 1000)))
      = Some (Meta.mk (makeColorFromHue 350) (Some 350) stored)
    ∧ stored = lit "Ada"
    ∧ strokes (after twoClients (SetName alice (named "  Ada  ") 1000))
      = strokes twoClients.
Proof.
  destruct (setName_stores_sanitized_name_and_keeps_strokes twoClients alice
              (named "  Ada  ") (lit "  Ada  ") 1000
              (Meta.mk (makeColorFromHue 350) (Some 350) (placeholderName 1234))
              eq_refl eq_refl ltac:(lia))
    as (stored & Hget & Hstored & _ & _ & _ & Hlog & _ & _).
  exists stored. split_and!; [exact Hget| |exact Hlog].
  rewrite Hstored. vm_compute. reflexivity.
Defined.

(** * Drawing *)

(** C7. The stroke a [draw] stores and broadcasts has [prevX] (and [prevY])
    [null] exactly when the payload's is absent, and any present value
    unchanged: a present 0 stays 0, an absent one never becomes 0. *)
Theorem draw_keeps_absent_prev_distinct_from_zero st id payload :
  ∃ stroke,
    strokes (after st (Draw id payload)) = strokes st ++ [stroke]
    ∧ emitted st (Draw id payload) = [(ToOthers id, MDraw stroke)]
    ∧ (Stroke.prevX stroke = VNull ↔ absent (prop payload "prevX"))
    ∧ (Stroke.prevY stroke = VNull ↔ absent (prop payload "prevY"))
    ∧ (¬ absent (prop payload "prevX") → Stroke.prevX stroke = prop payload "prevX")
    ∧ (¬ absent (prop payload "prevY") → Stroke.prevY stroke = prop payload "prevY")
    ∧ (prop payload "prevX" = VNumber 0 → Stroke.prevX stroke = VNumber 0)
    ∧ (prop payload "prevY" = VNumber 0 → Stroke.prevY stroke = VNumber 0)
    ∧ (absent (prop payload "prevX") → Stroke.prevX stroke ≠ VNumber 0)
    ∧ (absent (prop payload "prevY") → Stroke.prevY stroke ≠ VNumber 0).
Proof.
  unfold after, emitted. rewrite step_Draw. simpl.
  eexists. split; [reflexivity|]. split; [reflexivity|]. simpl. unfold absent.
  split_and!.
  - destruct (prop payload "prevX"); simpl; intuition congruence.
  - destruct (prop payload "prevY"); simpl; intuition congruence.
  - destruct (prop payload "prevX"); simpl; intuition congruence.
  - destruct (prop payload "prevY"); simpl; intuition congruence.
  - by intros ->.
  - by intros ->.
  - by intros [-> | ->].
  - by intros [-> | ->].
Qed.

(** The dot of the sample keeps its [null] previous point and the segment
    from the origin its zeros. *)
Example draw_dot_and_origin :
  (Stroke.prevX <$> strokes twoClients) = [VNumber 10; VNull; VNumber 0]
  ∧ (Stroke.prevY <$> strokes twoClients) = [VNumber 10; VNull; VNumber 0].
Proof. split; vm_compute; reflexivity. Qed.

(** C10. A [draw] handled for a connection with no registry entry is not
    dropped: the stroke is pushed and broadcast with colour [#3333ff],
    author name [User], the sender's connection id as author, and line
    width 4 unless the payload's [lineWidth] is a number. *)
Theorem draw_without_registry_entry_uses_fallbacks st id payload :
  mapGet id (connectedSockets st) = None →
  ∃ width,
    let stroke :=
      Stroke.mk (prop payload "x") (prop payload "y")
        (nullish (prop payload "prevX")) (nullish (prop payload "prevY"))
        (lit "#3333ff") width (lit "User") id in
    step st (Draw id payload)
      = (mkState (hueSeed st) (connectedSockets st) (strokes st ++ [stroke]),
         [(ToOthers id, MDraw stroke)])
    ∧ ((∀ n, prop payload "lineWidth" ≠ VNumber n) → width = 4%float)
    ∧ (∀ n, prop payload "lineWidth" = VNumber n → width = n).
Proof.
  intros Hm. rewrite step_Draw, Hm. unfold safePayload. simpl.
  eexists. split; [reflexivity|]. split.
  - intros Hn. destruct (prop payload "lineWidth"); try done. by destruct (Hn n).
  - by intros n ->.
Qed.

Lemma draw_without_registry_entry_uses_fallbacks_witness :
  step (initial 0) (Draw alice (VObject [num "x" 1; num "y" 2]))
  = (mkState 0 []
       [Stroke.mk (VNumber 1) (VNumber 2) VNull VNull (lit "#3333ff") 4 (lit "User") alice],
     [(ToOthers alice,
       MDraw (Stroke.mk (VNumber 1) (VNumber 2) VNull VNull (lit "#3333ff") 4
                (lit "User") alice))]).
Proof.
  destruct (draw_without_registry_entry_uses_fallbacks (initial 0) alice
              (VObject [num "x" 1; num "y" 2]) eq_refl)
    as (width & Hstep & Hdflt & _).
  rewrite Hstep, Hdflt; [reflexivity|]. intros n. vm_compute. discriminate.
Defined.

(** * The board state *)

(** An event that is not a clear leaves the log alone, or pushes the one
    stroke of a [draw]. *)
Lemma after_strokes st ev :
  isClearing ev = false →
  strokes (after st ev) = strokes st ++ appended st [ev].
Proof.
  intros Hev. unfold after.
  destruct ev as [id rh rn|id|id p rn|id p| | | | | | |id]; simpl in Hev;
    try discriminate.
  - rewrite step_Connection.
    destruct (assignUniqueHue (connectedSockets st) rh st) as [[hue st1] out].
    simpl. by rewrite app_nil_r.
  - rewrite step_RequestBoardState. simpl. by rewrite app_nil_r.
  - rewrite step_SetName. destruct (mapGet id (connectedSockets st)); simpl;
      by rewrite app_nil_r.
  - rewrite step_Draw. done.
  - rewrite step_Disconnect. simpl. by rewrite app_nil_r.
Qed.

Lemma run_strokes st evs :
  Forall (λ ev, isClearing ev = false) evs →
  strokes (run st evs) = strokes st ++ appended st evs.
Proof.
  intros Hevs. revert st.
  induction Hevs as [|ev evs Hev _ IH]; intros st; simpl.
  - by rewrite app_nil_r.
  - unfold run in *. rewrite IH, (after_strokes st ev Hev). simpl.
    by rewrite app_nil_r, <- app_assoc.
Qed.

(** C6. As long as no clear event occurred, the [boardState] sent to a
    client when it connects, and the one sent in answer to
    [requestBoardState], carry exactly the strokes pushed by the [draw]
    events so far, in the order of these events. *)
Theorem boardState_is_the_appended_strokes_in_order seed evs :
  Forall (λ ev, isClearing ev = false) evs →
  strokes (run (initial seed) evs) = appended (initial seed) evs
  ∧ (∀ id, emitted (run (initial seed) evs) (RequestBoardState id)
           = [(ToSocket id, MBoardState (appended (initial seed) evs))])
  ∧ (∀ id rndHue rndName, ∃ color name count users,
       emitted (run (initial seed) evs) (Connection id rndHue rndName)
       = [(ToSocket id, MInit color name);
          (ToSocket id, MBoardState (appended (initial seed) evs));
          (ToAll, MUsers count);
          (ToAll, MPresence count users)]).
Proof.
  intros Hevs. pose proof (run_strokes (initial seed) evs Hevs) as Hlog.
  simpl in Hlog. split_and!.
  - exact Hlog.
  - intros id. unfold emitted. rewrite step_RequestBoardState. simpl.
    by rewrite Hlog.
  - intros id rh rn. unfold emitted. rewrite step_Connection.
    destruct (assignUniqueHue _ rh _) as [[hue st1] out]. simpl.
    rewrite Hlog. by eexists _, _, _, _.
Qed.

Lemma boardState_is_the_appended_strokes_in_order_witness :
  emitted twoClients (RequestBoardState bob)
  = [(ToSocket bob, MBoardState (strokes twoClients))]
  ∧ length (strokes twoClients) = 3%nat.
Proof.
  destruct (boardState_is_the_appended_strokes_in_order 350
              [Connection alice 0 1234; Draw alice segment;
               Connection bob 0 4321; Draw bob dot; Draw alice fromOrigin])
    as (Hlog & Hreq & _).
  - repeat constructor.
  - split; [|vm_compute; reflexivity].
    unfold twoClients. rewrite Hreq, Hlog. reflexivity.
Defined.

(** * Connections and the uniqueness of hues *)

(** A connection accepted while a hue is free. *)
Lemma connection_while_free st id rndHue rndName :
  0 ≤ hueSeed st → (size (getUsedHues (connectedSockets st)) < 360)%nat →
  ∃ h, (assignUniqueHue (connectedSockets st) rndHue st).1.1 = h
       ∧ 0 ≤ h < 360
       ∧ (h ∉ getUsedHues (connectedSockets st))
       ∧ after st (Connection id rndHue rndName)
         = mkState (Z.rem (h + golden) 360)
             (mapSet id (Meta.mk (makeColorFromHue h) (Some h) (placeholderName rndName))
                (connectedSockets st))
             (strokes st).
Proof.
  intros Hseed Hsize.
  destruct (assignUniqueHue_free (connectedSockets st) rndHue st Hseed Hsize)
    as (h & Hassign & Hh & Hfree).
  exists h. unfold after. rewrite step_Connection, Hassign. done.
Qed.

(** The hues of the registry after a [set]. *)
Lemma getUsedHues_mapSet id m c h :
  h ∈ getUsedHues (mapSet id m c) → usedHueOf m = Some h ∨ h ∈ getUsedHues c.
Proof.
  intros (e & [->|He]%elem_of_mapSet & Hu)%elem_of_getUsedHues.
  - by left.
  - right. apply elem_of_getUsedHues. by exists e.
Qed.

Section connect_only.
Variable seed0 : Z.
Hypothesis seed0_range : 0 ≤ seed0 < 360.

Lemma candidate_range k : 0 ≤ candidate seed0 k < 360.
Proof. unfold candidate. apply Z.mod_pos_bound. lia. Qed.

Lemma afterConnects_initial : afterConnects seed0 0 (initial seed0).
Proof.
  split; simpl.
  - unfold candidate. rewrite Z.mul_0_l, Z.add_0_r. symmetry. apply Z.mod_small. lia.
  - intros h Hh. by apply not_elem_of_empty in Hh.
Qed.

(** The next connection is given the seed itself. *)
Lemma afterConnects_step k st id rndHue rndName :
  0 ≤ k < 360 → afterConnects seed0 k st →
  (assignUniqueHue (connectedSockets st) rndHue st).1.1 = candidate seed0 k
  ∧ afterConnects seed0 (k + 1) (after st (Connection id rndHue rndName)).
Proof.
  intros Hk [Hseed Hused].
  pose proof (candidate_range k) as Hrange.
  assert (candidate seed0 k ∉ getUsedHues (connectedSockets st)) as Hfree.
  { intros (j & Hj & Heq)%Hused. unfold candidate in Heq.
    apply golden_inj in Heq; lia. }
  assert (assignUniqueHue (connectedSockets st) rndHue st
          = (candidate seed0 k,
             mkState (Z.rem (candidate seed0 k + golden) 360) (connectedSockets st) (strokes st),
             [])) as Hassign.
  { unfold assignUniqueHue, mbind, M_bind, getSeed. rewrite Hseed.
    rewrite (probe_seed_free _ _ 359);
      rewrite (Z.rem_small (candidate seed0 k) 360) by lia; done. }
  split; [by rewrite Hassign|].
  unfold after. rewrite step_Connection, Hassign. simpl. split; simpl.
  - rewrite Z.rem_mod_nonneg by (unfold golden; lia).
    unfold candidate. rewrite Zplus_mod_idemp_l. f_equal. lia.
  - intros h [Hnew|Hold]%getUsedHues_mapSet.
    + injection Hnew as <-. exists k. split; [lia|done].
    + destruct (Hused h Hold) as (j & Hj & ->). exists j. split; [lia|done].
Qed.

Lemma assignedHues_candidates k st conns :
  0 ≤ k → k + Z.of_nat (length conns) ≤ 360 → afterConnects seed0 k st →
  assignedHues st conns = candidate seed0 <$> seqZ k (Z.of_nat (length conns)).
Proof.
  revert k st. induction conns as [|[[id rh] rn] conns IH]; intros k st Hk Hlen Hst.
  - done.
  - simpl length in *. rewrite seqZ_cons by lia. csimpl.
    destruct (afterConnects_step k st id rh rn) as [-> Hnext]; [lia|done|].
    f_equal. rewrite (IH (k + 1)); [|lia|lia|done].
    f_equal. f_equal; lia.
Qed.

Lemma assignedHues_NoDup conns :
  (length conns ≤ 360)%nat → NoDup (assignedHues (initial seed0) conns).
Proof.
  intros Hlen.
  rewrite (assignedHues_candidates 0); [|lia|lia|apply afterConnects_initial].
  apply NoDup_fmap_2_strong; [|apply NoDup_seqZ].
  intros j k Hj%elem_of_seqZ Hk%elem_of_seqZ Heq.
  unfold candidate in Heq. apply golden_inj in Heq; lia.
Qed.
End connect_only.

(** The seed stays a hue of [0, 360) whatever happens, the fallback of
    [assignUniqueHue] included. *)
Lemma after_hueSeed_range st ev :
  0 ≤ hueSeed st < 360 → 0 ≤ hueSeed (after st ev) < 360.
Proof.
  intros Hseed. pose proof (step_registry_unchanged st ev) as Hsame.
  destruct ev as [id rh rn| |id p rn| | | | | | | |id];
    [ | destruct Hsame as [_ ->]; exact Hseed | | destruct Hsame as [_ ->]; exact Hseed .. | ];
    unfold after.
  - rewrite step_Connection.
    unfold assignUniqueHue, mbind, M_bind, mret, M_ret, getSeed, setSeed.
    destruct (probe _ _ _ _) as [hue|] eqn:Hp; simpl; [|done].
    apply probe_Some in Hp as [_ (j & Hj & ->)].
    assert (0 ≤ Z.rem (hueSeed st + j * golden) 360 < 360) as Hhue
      by (apply Z.rem_bound_pos; unfold golden; lia).
    apply Z.rem_bound_pos; unfold golden in *; lia.
  - rewrite step_SetName. by destruct (mapGet id (connectedSockets st)).
  - by rewrite step_Disconnect.
Qed.

Lemma run_hueSeed_range seed evs :
  0 ≤ seed < 360 → 0 ≤ hueSeed (run (initial seed) evs) < 360.
Proof.
  intros Hseed. unfold run.
  assert (0 ≤ hueSeed (initial seed) < 360) as Hst by done.
  revert Hst. generalize (initial seed) as st.
  induction evs as [|ev evs IH]; intros st Hst; simpl; [done|].
  by apply IH, after_hueSeed_range.
Qed.

(** A hue held by an entry is a used hue. *)
Lemma held_hue_used c e h :
  e ∈ c → Meta.hue e.2 = Some h → h ∈ getUsedHues c.
Proof.
  intros He Hh. apply elem_of_getUsedHues. exists e. split; [done|].
  unfold usedHueOf. by rewrite Hh.
Qed.

Lemma elem_of_heldHueSet (c : registry) h :
  h ∈ heldHueSet c ↔ ∃ e, e ∈ c ∧ Meta.hue e.2 = Some h.
Proof.
  unfold heldHueSet. rewrite elem_of_list_to_set, list_elem_of_omap. done.
Qed.

(** When every entry has a numeric hue, the allocator's used set is within
    the set of held hues. *)
Lemma getUsedHues_held (c : registry) :
  Forall (λ e : jsstring * Meta.t, is_Some (Meta.hue e.2)) c →
  getUsedHues c ⊆ heldHueSet c.
Proof.
  intros Hnum h (e & He & Hu)%elem_of_getUsedHues.
  rewrite Forall_forall in Hnum. destruct (Hnum e He) as [h' Hh'].
  unfold usedHueOf in Hu. rewrite Hh' in Hu. injection Hu as <-.
  apply elem_of_heldHueSet. by exists e.
Qed.

(** A hue outside the used set is held by no entry. *)
Lemma not_used_not_held (c : registry) h :
  h ∉ getUsedHues c →
  (h ∉ heldHueSet c)
  ∧ (∀ id m, (id, m) ∈ c → Meta.hue m ≠ Some h)
  ∧ (∀ id m, mapGet id c = Some m → Meta.hue m ≠ Some h).
Proof.
  intros Hfree.
  assert (∀ id m, (id, m) ∈ c → Meta.hue m ≠ Some h) as Hentries.
  { intros id m Hin Hh. apply Hfree. by apply (held_hue_used c (id, m)). }
  split_and!; [|done|].
  - intros ([id m] & He & Hh)%elem_of_heldHueSet. by apply (Hentries id m).
  - intros id m Hget. apply mapGet_elem_of in Hget. by apply (Hentries id m).
Qed.

(** C1. From start-up, the hues assigned to a sequence of at most 360
    connects (no disconnect in between) are pairwise distinct; and whenever
    fewer than 360 hues are held by the live connections, [assignUniqueHue]
    returns an integer hue of [0, 360) that no registry entry holds.  The
    second part is given for the used set as the allocator computes it, and
    for the set of the [hue] fields of the registry entries themselves
    (every entry of a running server has a numeric hue). *)
Theorem assignUniqueHue_gives_distinct_hues_up_to_360 seed conns st rnd :
  0 ≤ seed < 360 →
  (length conns ≤ 360)%nat →
  0 ≤ hueSeed st < 360 →
  NoDup (assignedHues (initial seed) conns)
  ∧ ((size (getUsedHues (connectedSockets st)) < 360)%nat →
       0 ≤ (assignUniqueHue (connectedSockets st) rnd st).1.1 < 360
       ∧ ((assignUniqueHue (connectedSockets st) rnd st).1.1
            ∉ getUsedHues (connectedSockets st))
       ∧ ((assignUniqueHue (connectedSockets st) rnd st).1.1
            ∉ heldHueSet (connectedSockets st))
       ∧ (∀ id m, (id, m) ∈ connectedSockets st →
            Meta.hue m ≠ Some (assignUniqueHue (connectedSockets st) rnd st).1.1)
       ∧ (∀ id m, mapGet id (connectedSockets st) = Some m →
            Meta.hue m ≠ Some (assignUniqueHue (connectedSockets st) rnd st).1.1))
  ∧ (Forall (λ e : jsstring * Meta.t, is_Some (Meta.hue e.2)) (connectedSockets st) →
     (size (heldHueSet (connectedSockets st)) < 360)%nat →
       0 ≤ (assignUniqueHue (connectedSockets st) rnd st).1.1 < 360
       ∧ ((assignUniqueHue (connectedSockets st) rnd st).1.1
            ∉ heldHueSet (connectedSockets st))
       ∧ (∀ id m, (id, m) ∈ connectedSockets st →
            Meta.hue m ≠ Some (assignUniqueHue (connectedSockets st) rnd st).1.1)
       ∧ (∀ id m, mapGet id (connectedSockets st) = Some m →
            Meta.hue m ≠ Some (assignUniqueHue (connectedSockets st) rnd st).1.1)).
Proof.
  intros Hseed Hlen Hst. split; [by apply assignedHues_NoDup|].
  assert ((size (getUsedHues (connectedSockets st)) < 360)%nat →
          0 ≤ (assignUniqueHue (connectedSockets st) rnd st).1.1 < 360
          ∧ (assignUniqueHue (connectedSockets st) rnd st).1.1
              ∉ getUsedHues (connectedSockets st)) as Hused.
  { intros Hsize.
    destruct (assignUniqueHue_free (connectedSockets st) rnd st)
      as (h & -> & Hh & Hfree); [lia|done|done]. }
  split.
  - intros Hsize. destruct (Hused Hsize) as [Hrange Hfree].
    destruct (not_used_not_held _ _ Hfree) as (Hset & Hentries & Hget).
    split_and!; first [lia|done].
  - intros Hnum Hsize.
    assert (size (getUsedHues (connectedSockets st)) < 360)%nat as Hsize'.
    { eapply Nat.le_lt_trans; [|exact Hsize].
      by apply subseteq_size, getUsedHues_held. }
    destruct (Hused Hsize') as [Hrange Hfree].
    destruct (not_used_not_held _ _ Hfree) as (Hset & Hentries & Hget).
    split_and!; first [lia|done].
Qed.

Lemma assignUniqueHue_gives_distinct_hues_up_to_360_witness :
  NoDup (assignedHues (initial 350) [(alice, 0, 1234); (bob, 0, 4321); (alice, 7, 1111)])
  ∧ ((assignUniqueHue (connectedSockets twoClients) 0 twoClients).1.1
       ∉ getUsedHues (connectedSockets twoClients))
  ∧ 0 ≤ (assignUniqueHue (connectedSockets twoClients) 0 twoClients).1.1 < 360
  ∧ ((assignUniqueHue (connectedSockets twoClients) 0 twoClients).1.1
       ∉ heldHueSet (connectedSockets twoClients))
  ∧ Some 350 ≠ Some (assignUniqueHue (connectedSockets twoClients) 0 twoClients).1.1
  ∧ Some 127 ≠ Some (assignUniqueHue (connectedSockets twoClients) 0 twoClients).1.1.
Proof.
  destruct (assignUniqueHue_gives_distinct_hues_up_to_360 350
              [(alice, 0, 1234); (bob, 0, 4321); (alice, 7, 1111)] twoClients 0)
    as (Hnd & Hused & Hheld).
  - lia.
  - simpl. lia.
  - change (hueSeed twoClients) with 264. lia.
  - destruct Hused as (_ & Hfree & _); [vm_compute; lia|].
    destruct Hheld as (Hrange & Hset & _ & Hget).
    + apply (bool_decide_unpack _). vm_compute. exact I.
    + vm_compute. lia.
    + split_and!; [exact Hnd|exact Hfree|lia|lia|exact Hset| |].
      * exact (Hget alice
                 (Meta.mk (makeColorFromHue 350) (Some 350) (placeholderName 1234))
                 eq_refl).
      * exact (Hget bob
                 (Meta.mk (makeColorFromHue 127) (Some 127) (placeholderName 4321))
                 eq_refl).
Defined.

(** * The registry invariant *)

Lemma registryInvariant_initial seed : 0 ≤ seed < 360 → registryInvariant (initial seed).
Proof.
  intros Hseed. split_and!; simpl; [lia..| | |]; constructor.
Qed.

Lemma registryInvariant_Connection st id rndHue rndName :
  (length (connectedSockets st) < 360)%nat →
  registryInvariant st → registryInvariant (after st (Connection id rndHue rndName)).
Proof.
  intros Hlen (Hseed & Hkeys & Hhues & Hnum).
  destruct (connection_while_free st id rndHue rndName) as (h & _ & Hh & Hfree & ->).
  { lia. }
  { pose proof (size_getUsedHues (connectedSockets st)). lia. }
  split_and!; simpl.
  - apply Z.rem_bound_pos; unfold golden; lia.
  - apply Z.rem_bound_pos; unfold golden; lia.
  - by apply mapSet_keys_NoDup.
  - apply mapSet_heldHues_NoDup; [done|]. simpl.
    intros (e & He & Hin)%list_elem_of_fmap. apply Hfree.
    by apply (held_hue_used _ e).
  - apply Forall_forall. intros e [->|He]%elem_of_mapSet; [by eexists|].
    rewrite Forall_forall in Hnum. by apply Hnum.
Qed.

Lemma registryInvariant_SetName st id payload rnd :
  registryInvariant st → registryInvariant (after st (SetName id payload rnd)).
Proof.
  intros (Hseed & Hkeys & Hhues & Hnum). unfold after. rewrite step_SetName.
  destruct (mapGet id (connectedSockets st)) as [meta|] eqn:Hget; [|done].
  rewrite Forall_forall in Hnum.
  split_and!; simpl; [lia..| | |].
  - by apply mapSet_keys_NoDup.
  - by rewrite (mapSet_heldHues_same id meta).
  - apply Forall_forall. intros e [->|He]%elem_of_mapSet; [|by apply Hnum].
    simpl. apply (Hnum (id, meta)). by apply mapGet_elem_of.
Qed.

Lemma registryInvariant_Disconnect st id :
  registryInvariant st → registryInvariant (after st (Disconnect id)).
Proof.
  intros (Hseed & Hkeys & Hhues & Hnum). unfold after. rewrite step_Disconnect.
  split_and!; simpl; [lia..| | |].
  - by apply mapDelete_keys_NoDup.
  - by apply mapDelete_heldHues_NoDup.
  - rewrite Forall_forall in *. intros e [_ He]%list_elem_of_filter. by apply Hnum.
Qed.

Lemma reachable_registryInvariant st : reachable st → registryInvariant st.
Proof.
  induction 1 as [seed Hseed|st ev _ IH Hguard].
  - by apply registryInvariant_initial.
  - pose proof (step_registry_unchanged st ev) as Hsame.
    destruct ev as [id rh rn| |id p rn| | | | | | | |id];
      first
        [ apply registryInvariant_Connection; [by eapply Hguard|done]
        | by apply registryInvariant_SetName
        | by apply registryInvariant_Disconnect
        | destruct Hsame as [Hc Hs], IH as (? & ? & ? & ?);
          unfold registryInvariant; by rewrite Hc, Hs ].
Qed.

(** C8. In every state reached by connects, renames, draws, clears and
    disconnects, a connect being accepted only while fewer than 360
    connections are live, the used hues computed by [getUsedHues] are exactly
    the hues held by the registry entries, and two entries never hold the
    same hue. *)
Theorem used_hues_are_the_held_hues_without_duplicates st :
  reachable st →
  (∀ h, h ∈ getUsedHues (connectedSockets st)
        ↔ ∃ id m, mapGet id (connectedSockets st) = Some m ∧ Meta.hue m = Some h)
  ∧ (∀ id1 id2 m1 m2,
       mapGet id1 (connectedSockets st) = Some m1 →
       mapGet id2 (connectedSockets st) = Some m2 →
       id1 ≠ id2 → Meta.hue m1 ≠ Meta.hue m2).
Proof.
  intros (Hseed & Hkeys & Hhues & Hnum)%reachable_registryInvariant.
  rewrite Forall_forall in Hnum. split.
  - intros h. split.
    + intros ([id m] & He & Hu)%elem_of_getUsedHues. exists id, m.
      split; [by apply elem_of_mapGet|].
      destruct (Hnum _ He) as [h' Hh']. simpl in *.
      unfold usedHueOf in Hu. rewrite Hh' in Hu. congruence.
    + intros (id & m & Hget%mapGet_elem_of & Hh).
      by apply (held_hue_used _ (id, m)).
  - intros id1 id2 m1 m2 H1%mapGet_elem_of H2%mapGet_elem_of Hne Heq.
    apply Hne. unfold heldHues in Hhues.
    pose proof (NoDup_fmap_1 _ _ Hhues) as Hnd.
    apply list_elem_of_lookup in H1 as [i1 H1], H2 as [i2 H2].
    assert (i1 = i2) as ->.
    { eapply NoDup_lookup; [exact Hhues| |].
      - rewrite list_lookup_fmap, H1. reflexivity.
      - rewrite list_lookup_fmap, H2. simpl. by rewrite Heq. }
    congruence.
Qed.

Lemma used_hues_are_the_held_hues_without_duplicates_witness :
  (∀ h, h ∈ getUsedHues (connectedSockets twoClients)
        ↔ ∃ id m, mapGet id (connectedSockets twoClients) = Some m
                  ∧ Meta.hue m = Some h)
  ∧ (∀ id1 id2 m1 m2,
       mapGet id1 (connectedSockets twoClients) = Some m1 →
       mapGet id2 (connectedSockets twoClients) = Some m2 →
       id1 ≠ id2 → Meta.hue m1 ≠ Meta.hue m2).
Proof.
  apply used_hues_are_the_held_hues_without_duplicates.
  unfold twoClients, run. cbn [foldl].
  repeat (apply reachable_step;
          [|intros id rndHue rndName Hev; first [discriminate|vm_compute; lia]]).
  apply reachable_initial. lia.
Defined.

(** * Further properties of the hue allocator *)

(** The colour string of a hue parses back to the hue; above 359 the parser
    clamps. *)
Lemma parseHue_makeColor h :
  0 ≤ h ≤ 999 → parseHueFromColorString (makeColorFromHue h) = Some (Z.min 359 h).
Proof.
  intros Hh.
  assert (Forall (λ k, parseHueFromColorString (makeColorFromHue k)
                       = Some (Z.min 359 k)) (seqZ 0 1000)) as Hall
    by (apply (bool_decide_unpack _); vm_compute; exact I).
  rewrite Forall_forall in Hall. apply Hall, elem_of_seqZ. lia.
Qed.

(** X1. [parseHueFromColorString] undoes [makeColorFromHue] on every hue of
    [0, 360); on an integer of up to three digits it gives the integer
    capped at 359. *)
Theorem parseHueFromColorString_inverts_makeColorFromHue h :
  0 ≤ h ≤ 999 →
  parseHueFromColorString (makeColorFromHue h) = Some (Z.min 359 h)
  ∧ (h < 360 → parseHueFromColorString (makeColorFromHue h) = Some h).
Proof.
  intros Hh. rewrite parseHue_makeColor by done. split; [done|].
  intros Hlt. f_equal. lia.
Qed.

Lemma parseHueFromColorString_inverts_makeColorFromHue_witness :
  parseHueFromColorString (makeColorFromHue 137) = Some 137.
Proof.
  destruct (parseHueFromColorString_inverts_makeColorFromHue 137) as [_ H137];
    [lia|]. apply H137. lia.
Defined.

Lemma parseHue_range color h :
  parseHueFromColorString color = Some h → 0 ≤ h ≤ 359.
Proof.
  unfold parseHueFromColorString. destruct (matchHsl color); [|done].
  intros [= <-]. lia.
Qed.

(** X2. When the numeric hues of the registry are hues of [0, 360), so is
    every used hue, parsed ones included, and the used set has at most 360
    elements. *)
Theorem getUsedHues_stays_within_the_hue_circle (c : registry) :
  (∀ e h, e ∈ c → Meta.hue e.2 = Some h → 0 ≤ h < 360) →
  (∀ h, h ∈ getUsedHues c → 0 ≤ h < 360)
  ∧ (size (getUsedHues c) ≤ 360)%nat.
Proof.
  intros Hnum.
  assert (∀ h, h ∈ getUsedHues c → 0 ≤ h < 360) as Hrange.
  { intros h (e & He & Hu)%elem_of_getUsedHues. unfold usedHueOf in Hu.
    destruct (Meta.hue e.2) as [h'|] eqn:Hh.
    - injection Hu as <-. by eapply Hnum.
    - destruct (Meta.color e.2); [done|]. apply parseHue_range in Hu. lia. }
  split; [done|].
  assert (getUsedHues c ⊆ list_to_set (seqZ 0 360)) as Hsub.
  { intros h Hh%Hrange. apply elem_of_list_to_set, elem_of_seqZ. lia. }
  apply subseteq_size in Hsub.
  rewrite size_list_to_set in Hsub by apply NoDup_seqZ.
  by rewrite length_seqZ in Hsub.
Qed.

Lemma getUsedHues_stays_within_the_hue_circle_witness :
  (∀ h, h ∈ getUsedHues (connectedSockets twoClients) → 0 ≤ h < 360)
  ∧ (size (getUsedHues (connectedSockets twoClients)) ≤ 360)%nat.
Proof.
  apply getUsedHues_stays_within_the_hue_circle.
  intros e h He Hh. vm_compute in He.
  apply elem_of_cons in He as [->|He]; [vm_compute in Hh; injection Hh as <-; lia|].
  apply elem_of_cons in He as [->|He]; [vm_compute in Hh; injection Hh as <-; lia|].
  by apply elem_of_nil in He.
Defined.

(** X3. An entry without a numeric hue whose colour was made by
    [makeColorFromHue] reserves that hue all the same. *)
Theorem entry_without_numeric_hue_reserves_its_colour_hue (c : registry) id h name :
  0 ≤ h < 360 →
  (id, Meta.mk (makeColorFromHue h) None name) ∈ c →
  h ∈ getUsedHues c.
Proof.
  intros Hh Hin. apply elem_of_getUsedHues. eexists. split; [exact Hin|].
  unfold usedHueOf. simpl.
  destruct (makeColorFromHue h) as [|c0 cs] eqn:Hcol; [done|].
  rewrite <- Hcol, parseHue_makeColor by lia. f_equal. lia.
Qed.

Lemma entry_without_numeric_hue_reserves_its_colour_hue_witness :
  200 ∈ getUsedHues [(alice, Meta.mk (makeColorFromHue 200) None (lit "Ada"))].
Proof.
  apply (entry_without_numeric_hue_reserves_its_colour_hue _ alice 200 (lit "Ada"));
    [lia|]. apply elem_of_cons. by left.
Defined.

(** X4. The used set never has more hues than the registry has entries. *)
Theorem used_hues_are_no_more_than_connections (c : registry) :
  (size (getUsedHues c) ≤ length c)%nat.
Proof. apply size_getUsedHues. Qed.

(** The loop stops at the first free candidate: all the candidates before
    it are taken. *)
Lemma probe_first used seed n i h :
  probe used seed n i = Some h →
  ∃ j, i ≤ j < i + Z.of_nat n
       ∧ h = Z.rem (seed + j * golden) 360
       ∧ ∀ l, i ≤ l < j → Z.rem (seed + l * golden) 360 ∈ used.
Proof.
  revert i. induction n as [|n IH]; intros i; unfold probe; fold probe; [done|].
  simpl. case_decide as Hin.
  - intros (j & Hj & Hh & Hbefore)%IH. exists j.
    split; [lia|]. split; [done|].
    intros l Hl. destruct (decide (l = i)) as [->|Hne]; [done|].
    apply Hbefore. lia.
  - intros [= <-]. exists i. split; [lia|]. split; [done|]. intros l Hl. lia.
Qed.

Lemma probe_all_used used seed n i :
  (∀ j, i ≤ j < i + Z.of_nat n → Z.rem (seed + j * golden) 360 ∈ used) →
  probe used seed n i = None.
Proof.
  revert i. induction n as [|n IH]; intros i Hall; unfold probe; fold probe; [done|].
  simpl. rewrite decide_True by (apply Hall; lia). apply IH.
  intros j Hj. apply Hall. lia.
Qed.

(** X5. While a hue is free, [assignUniqueHue] returns the first free
    candidate in probing order (seed, seed + 137, seed + 274, ... modulo
    360), leaves the seed on the candidate that follows it, and changes and
    emits nothing else. *)
Theorem assignUniqueHue_returns_the_first_free_candidate connected rnd st :
  0 ≤ hueSeed st < 360 →
  (size (getUsedHues connected) < 360)%nat →
  ∃ j, 0 ≤ j < 360
       ∧ assignUniqueHue connected rnd st
         = (candidate (hueSeed st) j,
            mkState (candidate (hueSeed st) (j + 1)) (connectedSockets st) (strokes st),
            [])
       ∧ (candidate (hueSeed st) j ∉ getUsedHues connected)
       ∧ ∀ i, 0 ≤ i < j → candidate (hueSeed st) i ∈ getUsedHues connected.
Proof.
  intros Hseed Hsize. unfold assignUniqueHue, mbind, M_bind, mret, M_ret, getSeed, setSeed.
  destruct (probe_finds (getUsedHues connected) (hueSeed st)) as [h Hp]; [lia|done|].
  rewrite Hp. simpl.
  pose proof (probe_Some _ _ _ _ _ Hp) as [Hfree _].
  apply probe_first in Hp as (j & Hj & -> & Hbefore).
  assert (∀ l, 0 ≤ l → Z.rem (hueSeed st + l * golden) 360 = candidate (hueSeed st) l)
    as Hcand.
  { intros l Hl. apply Z.rem_mod_nonneg; unfold golden; lia. }
  rewrite Hcand in * by lia.
  exists j. split; [lia|]. split; [|split; [done|]].
  - do 2 f_equal. pose proof (candidate_range (hueSeed st) j) as Hr.
    rewrite Z.rem_mod_nonneg by (unfold golden; lia).
    unfold candidate, golden. rewrite Zplus_mod_idemp_l.
    by replace (hueSeed st + (j + 1) * 137) with (hueSeed st + j * 137 + 137) by lia.
  - intros i Hi. rewrite <- Hcand by lia. apply Hbefore. lia.
Qed.

Lemma assignUniqueHue_returns_the_first_free_candidate_witness :
  ∃ j, 0 ≤ j < 360
       ∧ assignUniqueHue (connectedSockets twoClients) 0 twoClients
         = (candidate (hueSeed twoClients) j,
            mkState (candidate (hueSeed twoClients) (j + 1))
              (connectedSockets twoClients) (strokes twoClients),
            [])
       ∧ (candidate (hueSeed twoClients) j ∉ getUsedHues (connectedSockets twoClients))
       ∧ ∀ i, 0 ≤ i < j →
              candidate (hueSeed twoClients) i ∈ getUsedHues (connectedSockets twoClients).
Proof.
  apply assignUniqueHue_returns_the_first_free_candidate.
  - change (hueSeed twoClients) with 264. lia.
  - vm_compute. lia.
Defined.

(** On a new key, [set] appends. *)
Lemma mapSet_fresh id m (c : registry) :
  mapGet id c = None → mapSet id m c = c ++ [(id, m)].
Proof.
  unfold mapGet. induction c as [|[k v] c IH]; simpl; [done|].
  destruct (decide (k = id)) as [->|Hk]; [done|]. intros Hget. by rewrite IH.
Qed.

Lemma mapGet_None_not_in id (c : registry) :
  mapGet id c = None → ∀ m, (id, m) ∉ c.
Proof.
  unfold mapGet. induction c as [|[k v] c IH]; simpl; intros Hget m Hin.
  - by apply elem_of_nil in Hin.
  - destruct (decide (k = id)) as [->|Hk]; [done|].
    apply elem_of_cons in Hin as [[= <- <-]|Hin]; [done|]. by apply (IH Hget m).
Qed.

(** X6. With every hue of [0, 360) in use, [assignUniqueHue] falls back to
    the random hue and leaves the seed alone; the connection is then
    registered with that hue although another entry already reserves it. *)
Theorem connection_beyond_360_hues_duplicates_a_hue st id rndHue rndName :
  0 ≤ hueSeed st →
  (∀ r, 0 ≤ r < 360 → r ∈ getUsedHues (connectedSockets st)) →
  0 ≤ rndHue < 360 →
  mapGet id (connectedSockets st) = None →
  assignUniqueHue (connectedSockets st) rndHue st = (rndHue, st, [])
  ∧ hueSeed (after st (Connection id rndHue rndName)) = hueSeed st
  ∧ mapGet id (connectedSockets (after st (Connection id rndHue rndName)))
    = Some (Meta.mk (makeColorFromHue rndHue) (Some rndHue) (placeholderName rndName))
  ∧ ∃ id' m',
      id' ≠ id
      ∧ (id', m') ∈ connectedSockets (after st (Connection id rndHue rndName))
      ∧ usedHueOf m' = Some rndHue.
Proof.
  intros Hseed Hfull Hrnd Hfresh.
  assert (assignUniqueHue (connectedSockets st) rndHue st = (rndHue, st, []))
    as Hassign.
  { unfold assignUniqueHue, mbind, M_bind, mret, M_ret, getSeed.
    rewrite probe_all_used; [by destruct st|].
    intros j Hj. apply Hfull, Z.rem_bound_pos; unfold golden; lia. }
  split; [done|]. unfold after. rewrite step_Connection, Hassign. simpl.
  split; [done|]. split; [by rewrite mapGet_mapSet|].
  pose proof (Hfull rndHue Hrnd) as Hin.
  apply elem_of_getUsedHues in Hin as ([id' m'] & Hin & Hu).
  exists id', m'. split_and!;
    [ | rewrite (mapSet_fresh _ _ _ Hfresh); set_solver | done ].
  intros ->. by apply (mapGet_None_not_in _ _ Hfresh m').
Qed.

Lemma fullHouse_uses_every_hue r :
  0 ≤ r < 360 → r ∈ getUsedHues (connectedSockets fullHouse).
Proof.
  intros Hr. destruct (golden_covers 0 r) as (k & Hk & Heq); [lia..|].
  rewrite Z.rem_mod_nonneg in Heq by (unfold golden; lia).
  apply elem_of_getUsedHues.
  exists (numToString k,
          Meta.mk (makeColorFromHue (candidate 0 k)) (Some (candidate 0 k))
            (placeholderName 1000)).
  split.
  - unfold fullHouse. cbn [connectedSockets]. unfold packed.
    apply list_elem_of_fmap. exists k. split; [done|]. apply elem_of_seqZ. lia.
  - unfold usedHueOf. cbn [Meta.hue snd]. f_equal. exact Heq.
Qed.

Lemma connection_beyond_360_hues_duplicates_a_hue_witness :
  assignUniqueHue (connectedSockets fullHouse) 5 fullHouse = (5, fullHouse, [])
  ∧ mapGet (lit "late")
      (connectedSockets (after fullHouse (Connection (lit "late") 5 1000)))
    = Some (Meta.mk (makeColorFromHue 5) (Some 5) (placeholderName 1000))
  ∧ ∃ id' m',
      id' ≠ lit "late"
      ∧ (id', m') ∈ connectedSockets (after fullHouse (Connection (lit "late") 5 1000))
      ∧ usedHueOf m' = Some 5.
Proof.
  destruct (connection_beyond_360_hues_duplicates_a_hue fullHouse (lit "late") 5 1000)
    as (Hassign & _ & Hget & Hdup).
  - unfold fullHouse. cbn [hueSeed]. lia.
  - apply fullHouse_uses_every_hue.
  - lia.
  - vm_compute. reflexivity.
  - split_and!; done.
Defined.

(** X7. From any seed of [0, 360), the 360 candidates of the probing loop
    are the 360 hues, each once: every hue is some candidate and two
    candidates less than 360 steps apart differ; after 360 steps the
    probing is back on the seed. *)
Theorem candidates_visit_every_hue_exactly_once seed :
  0 ≤ seed < 360 →
  (∀ r, 0 ≤ r < 360 → ∃ k, 0 ≤ k < 360 ∧ candidate seed k = r)
  ∧ (∀ j k, 0 ≤ j < 360 → 0 ≤ k < 360 →
            candidate seed j = candidate seed k → j = k)
  ∧ candidate seed 360 = seed.
Proof.
  intros Hseed. split_and!.
  - intros r Hr. destruct (golden_covers seed r) as (k & Hk & Heq); [lia..|].
    exists k. split; [done|]. unfold candidate.
    by rewrite <- Z.rem_mod_nonneg by (unfold golden; lia).
  - intros j k Hj Hk. by apply golden_inj.
  - unfold candidate, golden.
    replace (seed + 360 * 137) with (seed + 137 * 360) by lia.
    rewrite Z_mod_plus_full. apply Z.mod_small. lia.
Qed.

Lemma candidates_visit_every_hue_exactly_once_witness :
  (∃ k, 0 ≤ k < 360 ∧ candidate 350 k = 0) ∧ candidate 350 360 = 350.
Proof.
  destruct (candidates_visit_every_hue_exactly_once 350) as (Hall & _ & Hback);
    [lia|].
  split; [apply Hall; lia|exact Hback].
Defined.

(** X8. From start-up, the [k]-th of at most 360 successive connects is
    given the hue (seed + 137 k) mod 360, whatever the socket ids. *)
Theorem connects_from_startup_step_by_the_golden_angle seed conns :
  0 ≤ seed < 360 →
  (length conns ≤ 360)%nat →
  assignedHues (initial seed) conns
  = candidate seed <$> seqZ 0 (Z.of_nat (length conns)).
Proof.
  intros Hseed Hlen.
  apply assignedHues_candidates; [lia|lia|by apply afterConnects_initial].
Qed.

Lemma connects_from_startup_step_by_the_golden_angle_witness :
  assignedHues (initial 350) [(alice, 0, 1234); (bob, 0, 4321); (alice, 7, 1111)]
  = [350; 127; 264].
Proof.
  rewrite connects_from_startup_step_by_the_golden_angle; [|lia|simpl; lia].
  vm_compute. reflexivity.
Defined.


(** * Further properties of the registry operations *)

Lemma mapGet_mapDelete id (c : registry) : mapGet id (mapDelete id c) = None.
Proof.
  unfold mapGet, mapDelete. induction c as [|[k v] c IH]; [done|].
  rewrite filter_cons. simpl. destruct (decide (k ≠ id)) as [Hk|Hk]; [|done].
  simpl. by rewrite decide_False.
Qed.

Lemma mapGet_mapDelete_ne id id' (c : registry) :
  id ≠ id' → mapGet id' (mapDelete id c) = mapGet id' c.
Proof.
  intros Hne. unfold mapGet, mapDelete. induction c as [|[k v] c IH]; [done|].
  rewrite filter_cons. simpl. destruct (decide (k ≠ id)) as [Hk|Hk]; simpl.
  - by rewrite IH.
  - apply dec_stable in Hk as ->. by rewrite decide_False.
Qed.

Lemma mapDelete_absent id (c : registry) :
  mapGet id c = None → mapDelete id c = c.
Proof.
  unfold mapGet, mapDelete. induction c as [|[k v] c IH]; [done|].
  rewrite filter_cons. simpl. destruct (decide (k = id)) as [->|Hk]; [done|].
  intros Hget. rewrite decide_True by done. by rewrite IH.
Qed.


(** In a list without two elements of the same image, an image determines
    its element. *)
Lemma NoDup_fmap_elem_inj {A B} (f : A → B) (l : list A) x y :
  NoDup (f <$> l) → x ∈ l → y ∈ l → f x = f y → x = y.
Proof.
  intros Hnd [i Hx]%list_elem_of_lookup [j Hy]%list_elem_of_lookup Heq.
  assert (i = j) as ->.
  { eapply NoDup_lookup; [exact Hnd| |].
    - rewrite list_lookup_fmap, Hx. reflexivity.
    - rewrite list_lookup_fmap, Hy. simpl. by rewrite Heq. }
  congruence.
Qed.

(** A [setName] on a registered socket keeps the keys and their order. *)
Lemma mapSet_keys_present id m m' (c : registry) :
  mapGet id c = Some m → (mapSet id m' c).*1 = c.*1.
Proof.
  intros Hget%mapGet_elem_of. rewrite mapSet_keys, decide_True; [done|].
  apply list_elem_of_fmap. by exists (id, m).
Qed.

(** * Further properties of the clear variants *)

Lemma filter_all {A} (P : A → Prop) `{!∀ x, Decision (P x)} (l : list A) :
  (∀ x, P x) → filter P l = l.
Proof.
  intros HP. induction l as [|x l IH]; [done|].
  rewrite filter_cons, decide_True by done. by rewrite IH.
Qed.

Lemma filter_none {A} (P : A → Prop) `{!∀ x, Decision (P x)} (l : list A) :
  (∀ x, ¬ P x) → filter P l = [].
Proof.
  intros HP. induction l as [|x l IH]; [done|].
  by rewrite filter_cons, decide_False.
Qed.

(** Every clearing event is one [filter] of the log; nothing else of the
    state changes. *)
Lemma after_clearing st ev :
  isClearing ev = true →
  after st ev
  = mkState (hueSeed st) (connectedSockets st)
      (filter (keeps (connectedSockets st) ev) (strokes st)).
Proof.
  intros Hev. unfold after.
  destruct ev as [| | | |id|id|id p|id p|id p|id|]; try discriminate.
  - by rewrite step_Clear, step_ClearMine.
  - by rewrite step_ClearMine.
  - rewrite step_ClearByColor.
    destruct (prop p "color") as [| | | |[|c0 cs]|] eqn:Hp; simpl;
      first [ f_equal; apply list_filter_iff; intros s; simpl; by rewrite Hp
            | rewrite filter_all; [by destruct st|]; intros s; simpl; by rewrite Hp ].
  - rewrite step_ClearByUsername.
    destruct (prop p "username") as [| | | |u|] eqn:Hp; simpl;
      try (rewrite filter_all; [by destruct st|]; intros s; simpl; by rewrite Hp).
    destruct (trim u) as [|c0 cs] eqn:Hu; simpl.
    + rewrite filter_all; [by destruct st|]. intros s. simpl. by rewrite Hp, Hu.
    + f_equal. apply list_filter_iff. intros s. simpl. by rewrite Hp, Hu.
  - rewrite step_ClearByAuthor.
    destruct (prop p "authorId") as [| | | |[|c0 cs]|] eqn:Hp; simpl;
      first [ f_equal; apply list_filter_iff; intros s; simpl; by rewrite Hp
            | rewrite filter_all; [by destruct st|]; intros s; simpl; by rewrite Hp ].
  - rewrite step_RequestClearAll. simpl. f_equal. symmetry.
    apply filter_none. intros s. simpl. tauto.
Qed.

(** * The shape of every state of a run *)

Lemma startsVisible_placeholder rnd : startsVisible (placeholderName rnd).
Proof. reflexivity. Qed.

Lemma startsVisible_sanitizeName payload rnd :
  startsVisible (sanitizeName payload rnd).
Proof.
  unfold sanitizeName, slice0, orElse.
  destruct (trim_spec (stringOr (prop payload "name") []))
    as (pre & post & _ & _ & _ & Hhead & _).
  destruct (trim (stringOr (prop payload "name") [])) as [|c0 cs].
  - exact (startsVisible_placeholder rnd).
  - simpl. by apply Hhead.
Qed.

Lemma startsVisible_orElse s dflt : startsVisible s → orElse s dflt = s.
Proof. by destruct s. Qed.

Lemma wellFormed_after st ev : wellFormed st → wellFormed (after st ev).
Proof.
  intros (Hkeys & Hreg & Hlog).
  destruct (isClearing ev) eqn:Hev.
  { rewrite after_clearing by done. split_and!; simpl; [done..|].
    rewrite Forall_forall in *. intros s [_ Hs]%list_elem_of_filter. by apply Hlog. }
  unfold after.
  destruct ev as [id rh rn|id|id p rn|id p| | | | | | |id]; try discriminate.
  - rewrite step_Connection.
    destruct (assignUniqueHue (connectedSockets st) rh st) as [[hue st1] out].
    split_and!; simpl; [by apply mapSet_keys_NoDup| |done].
    rewrite Forall_forall in *. intros e [->|He]%elem_of_mapSet; [|by apply Hreg].
    simpl. split; [by exists hue|exact (startsVisible_placeholder rn)].
  - by rewrite step_RequestBoardState.
  - rewrite step_SetName.
    destruct (mapGet id (connectedSockets st)) as [meta|] eqn:Hget; [|done].
    split_and!; simpl; [by apply mapSet_keys_NoDup| |done].
    rewrite Forall_forall in *. intros e [->|He]%elem_of_mapSet; [|by apply Hreg].
    simpl. split; [|exact (startsVisible_sanitizeName p rn)].
    apply (Hreg (id, meta)). by apply mapGet_elem_of.
  - rewrite step_Draw. split_and!; simpl; [done..|].
    apply Forall_app_2; [done|]. apply Forall_singleton. simpl.
    rewrite Forall_forall in Hreg.
    destruct (mapGet id (connectedSockets st)) as [meta|] eqn:Hget; simpl.
    + apply mapGet_elem_of, Hreg in Hget as [(h & _ & Hcol) Hname]. simpl in *.
      rewrite (startsVisible_orElse _ _ Hname). split; [done|].
      rewrite Hcol. by destruct (makeColorFromHue h) eqn:Hmk.
    + done.
  - rewrite step_Disconnect. split_and!; simpl; [by apply mapDelete_keys_NoDup| |done].
    rewrite Forall_forall in *. intros e [_ He]%list_elem_of_filter. by apply Hreg.
Qed.

Lemma run_wellFormed seed evs : wellFormed (run (initial seed) evs).
Proof.
  unfold run.
  assert (wellFormed (initial seed)) as Hst.
  { split_and!; simpl; constructor. }
  revert Hst. generalize (initial seed) as st.
  induction evs as [|ev evs IH]; intros st Hst; simpl; [done|].
  by apply IH, wellFormed_after.
Qed.

(** * Connecting, renaming, disconnecting *)

(** X9. A connection stores under the socket id exactly the colour and the
    name it announces in [init], together with the hue the colour was made
    from; it then sends the board, the head count and the presence list of
    the new registry; no other entry and no stroke is touched. *)
Theorem connection_registers_what_init_announces st id rndHue rndName :
  ∃ hue,
    mapGet id (connectedSockets (after st (Connection id rndHue rndName)))
      = Some (Meta.mk (makeColorFromHue hue) (Some hue) (placeholderName rndName))
    ∧ emitted st (Connection id rndHue rndName)
      = [(ToSocket id, MInit (makeColorFromHue hue) (placeholderName rndName));
         (ToSocket id, MBoardState (strokes st));
         (ToAll, MUsers (length (connectedSockets (after st (Connection id rndHue rndName)))));
         (ToAll, MPresence
                   (length (connectedSockets (after st (Connection id rndHue rndName))))
                   (presenceOf (connectedSockets (after st (Connection id rndHue rndName)))))]
    ∧ (∀ id', id' ≠ id →
         mapGet id' (connectedSockets (after st (Connection id rndHue rndName)))
         = mapGet id' (connectedSockets st))
    ∧ strokes (after st (Connection id rndHue rndName)) = strokes st.
Proof.
  unfold after, emitted. rewrite step_Connection.
  destruct (assignUniqueHue (connectedSockets st) rndHue st) as [[hue st1] out].
  simpl. exists hue. split_and!; [by rewrite mapGet_mapSet|done| |done].
  intros id' Hne. by rewrite mapGet_mapSet_ne.
Qed.

(** X10. A connection under a socket id that is not registered is added at
    the end of the registry, behind the earlier entries in their order, and
    the head count grows by one. *)
Theorem new_connection_is_listed_last st id rndHue rndName :
  mapGet id (connectedSockets st) = None →
  ∃ meta,
    connectedSockets (after st (Connection id rndHue rndName))
      = connectedSockets st ++ [(id, meta)]
    ∧ presenceOf (connectedSockets (after st (Connection id rndHue rndName)))
      = presenceOf (connectedSockets st) ++ [(id, Meta.name meta, Meta.color meta)]
    ∧ (ToAll, MUsers (S (length (connectedSockets st))))
        ∈ emitted st (Connection id rndHue rndName).
Proof.
  intros Hfresh. unfold after, emitted. rewrite step_Connection.
  destruct (assignUniqueHue (connectedSockets st) rndHue st) as [[hue st1] out].
  simpl. rewrite (mapSet_fresh _ _ _ Hfresh). eexists. split; [reflexivity|].
  split.
  - unfold presenceOf. by rewrite fmap_app.
  - rewrite length_app. simpl. rewrite Nat.add_1_r. set_solver.
Qed.

Lemma new_connection_is_listed_last_witness :
  ∃ meta,
    connectedSockets (after twoClients (Connection (lit "sockC") 0 5555))
      = connectedSockets twoClients ++ [(lit "sockC", meta)]
    ∧ (ToAll, MUsers 3) ∈ emitted twoClients (Connection (lit "sockC") 0 5555).
Proof.
  destruct (new_connection_is_listed_last twoClients (lit "sockC") 0 5555 eq_refl)
    as (meta & Hreg & _ & Hcount).
  exists meta. split; [exact Hreg|exact Hcount].
Defined.

(** X11. A disconnect removes the entry of that socket id and nothing else:
    every other entry, the seed and the stroke log stay (strokes outlive
    their author), and disconnecting again changes nothing more. *)
Theorem disconnect_removes_only_that_connection st id :
  mapGet id (connectedSockets (after st (Disconnect id))) = None
  ∧ (∀ id', id' ≠ id →
       mapGet id' (connectedSockets (after st (Disconnect id)))
       = mapGet id' (connectedSockets st))
  ∧ strokes (after st (Disconnect id)) = strokes st
  ∧ hueSeed (after st (Disconnect id)) = hueSeed st
  ∧ after (after st (Disconnect id)) (Disconnect id) = after st (Disconnect id).
Proof.
  unfold after. rewrite !step_Disconnect. simpl. split_and!; try done.
  - apply mapGet_mapDelete.
  - intros id' Hne. by rewrite mapGet_mapDelete_ne.
  - f_equal. apply mapDelete_absent, mapGet_mapDelete.
Qed.



(** X13. In a reachable state (connects accepted below 360 live entries),
    the hue of a socket that disconnects is free again: it is no longer
    among the used hues. *)
Theorem disconnect_frees_the_hue st id m h :
  reachable st →
  mapGet id (connectedSockets st) = Some m →
  Meta.hue m = Some h →
  h ∉ getUsedHues (connectedSockets (after st (Disconnect id))).
Proof.
  intros (Hseed & Hkeys & Hhues & Hnum)%reachable_registryInvariant Hget Hh.
  unfold after. rewrite step_Disconnect. simpl.
  intros (e & [Hne He]%list_elem_of_filter & Hu)%elem_of_getUsedHues.
  rewrite Forall_forall in Hnum. destruct (Hnum e He) as [h' Hh'].
  unfold usedHueOf in Hu. rewrite Hh' in Hu. injection Hu as ->.
  apply Hne. apply mapGet_elem_of in Hget.
  assert (e = (id, m)) as -> by
    (eapply (NoDup_fmap_elem_inj _ _ _ _ Hhues); [done..|simpl; congruence]).
  done.
Qed.

Lemma disconnect_frees_the_hue_witness :
  350 ∉ getUsedHues (connectedSockets (after twoClients (Disconnect alice))).
Proof.
  apply (disconnect_frees_the_hue twoClients alice
           (Meta.mk (makeColorFromHue 350) (Some 350) (placeholderName 1234)) 350);
    [|reflexivity..].
  unfold twoClients, run. cbn [foldl].
  repeat (apply reachable_step;
          [|intros id rndHue rndName Hev; first [discriminate|vm_compute; lia]]).
  apply reachable_initial. lia.
Defined.

(** X14. A [setName] from a socket that has no registry entry changes
    nothing and emits nothing. *)
Theorem setName_of_unknown_connection_is_a_noop st id payload rnd :
  mapGet id (connectedSockets st) = None →
  step st (SetName id payload rnd) = (st, []).
Proof. intros Hget. by rewrite step_SetName, Hget. Qed.

Lemma setName_of_unknown_connection_is_a_noop_witness :
  step twoClients (SetName (lit "ghost") (named "Eve") 1000) = (twoClients, []).
Proof. by apply setName_of_unknown_connection_is_a_noop. Defined.

(** X15. When the payload of [setName] has no string [name] (missing
    payload, missing field, a number, ...), or a name of white space only,
    the stored name is the generated placeholder. *)
Theorem setName_without_usable_name_stores_the_placeholder st id payload rnd m :
  mapGet id (connectedSockets st) = Some m →
  (∀ s, prop payload "name" = VString s → trim s = []) →
  mapGet id (connectedSockets (after st (SetName id payload rnd)))
  = Some (Meta.mk (Meta.color m) (Meta.hue m) (placeholderName rnd)).
Proof.
  intros Hget Hname. unfold after. rewrite step_SetName, Hget. simpl.
  rewrite mapGet_mapSet. do 2 f_equal. unfold sanitizeName, stringOr, slice0.
  destruct (prop payload "name") as [| | | |s|]; try done.
  by rewrite (Hname s eq_refl).
Qed.

Lemma setName_without_usable_name_stores_the_placeholder_witness :
  mapGet bob (connectedSockets (after twoClients (SetName bob VNull 7777)))
  = Some (Meta.mk (makeColorFromHue 127) (Some 127) (placeholderName 7777)).
Proof.
  apply (setName_without_usable_name_stores_the_placeholder twoClients bob VNull 7777
           (Meta.mk (makeColorFromHue 127) (Some 127) (placeholderName 4321)) eq_refl).
  intros s Hs. discriminate Hs.
Defined.

(** X16. A [setName] changes one name and nothing else: the renamed
    entry keeps its colour and its hue and gets the sanitized name; the
    socket ids and their order, every hue, the other entries, the seed and
    the stroke log stay; and the presence list it broadcasts is the one of
    the new registry. *)
Theorem setName_changes_only_the_name st id payload rnd m :
  mapGet id (connectedSockets st) = Some m →
  (connectedSockets (after st (SetName id payload rnd))).*1 = (connectedSockets st).*1
  ∧ heldHues (connectedSockets (after st (SetName id payload rnd)))
    = heldHues (connectedSockets st)
  ∧ (∀ id', id' ≠ id →
       mapGet id' (connectedSockets (after st (SetName id payload rnd)))
       = mapGet id' (connectedSockets st))
  ∧ hueSeed (after st (SetName id payload rnd)) = hueSeed st
  ∧ emitted st (SetName id payload rnd)
    = [(ToAll, MPresence (length (connectedSockets st))
                 (presenceOf (connectedSockets (after st (SetName id payload rnd)))))]
  ∧ mapGet id (connectedSockets (after st (SetName id payload rnd)))
    = Some (Meta.mk (Meta.color m) (Meta.hue m) (sanitizeName payload rnd))
  ∧ strokes (after st (SetName id payload rnd)) = strokes st.
Proof.
  intros Hget. unfold after, emitted. rewrite step_SetName, Hget. simpl.
  split_and!; try done.
  - by apply (mapSet_keys_present _ m).
  - by apply (mapSet_heldHues_same _ m).
  - intros id' Hne. by rewrite mapGet_mapSet_ne.
  - do 3 f_equal.
    rewrite <- (length_fmap fst), (mapSet_keys_present _ m) by done.
    by rewrite length_fmap.
  - apply mapGet_mapSet.
Qed.

Lemma setName_changes_only_the_name_witness :
  (connectedSockets (after twoClients (SetName alice (named "Ada") 1000))).*1
  = [alice; bob]
  ∧ mapGet alice (connectedSockets (after twoClients (SetName alice (named "Ada") 1000)))
    = Some (Meta.mk (makeColorFromHue 350) (Some 350) (lit "Ada"))
  ∧ strokes (after twoClients (SetName alice (named "Ada") 1000)) = strokes twoClients.
Proof.
  destruct (setName_changes_only_the_name twoClients alice (named "Ada") 1000
              (Meta.mk (makeColorFromHue 350) (Some 350) (placeholderName 1234))
              eq_refl) as (Hkeys & _ & _ & _ & _ & Hget & Hlog).
  split_and!; [rewrite Hkeys; reflexivity| |exact Hlog].
  rewrite Hget. vm_compute. reflexivity.
Defined.

(** * Drawing and clearing, further *)

(** X17. A [draw] is sent to every client except its sender, who gets
    nothing back. *)
Theorem draw_is_not_echoed_to_its_sender st id payload :
  delivered id (emitted st (Draw id payload)) = []
  ∧ ∀ other, other ≠ id →
      delivered other (emitted st (Draw id payload))
      = [MDraw (safePayload id (mapGet id (connectedSockets st)) payload)].
Proof.
  unfold emitted. rewrite step_Draw. simpl. unfold delivered. split.
  - rewrite filter_cons. simpl. by rewrite bool_decide_eq_true_2.
  - intros other Hne. rewrite filter_cons. simpl.
    by rewrite bool_decide_eq_false_2.
Qed.

Lemma makeColorFromHue_nonempty h : makeColorFromHue h ≠ [].
Proof. unfold makeColorFromHue. discriminate. Qed.

(** X18. In any state of a run, the stroke of a [draw] sent by a registered
    socket carries the colour and the name its registry entry has at that
    moment, never the fallbacks. *)
Theorem draw_records_the_current_identity seed evs id payload m :
  mapGet id (connectedSockets (run (initial seed) evs)) = Some m →
  ∃ stroke,
    strokes (after (run (initial seed) evs) (Draw id payload))
      = strokes (run (initial seed) evs) ++ [stroke]
    ∧ Stroke.color stroke = Meta.color m
    ∧ Stroke.username stroke = Meta.name m
    ∧ Stroke.authorId stroke = id.
Proof.
  intros Hget. destruct (run_wellFormed seed evs) as (_ & Hreg & _).
  rewrite Forall_forall in Hreg.
  destruct (Hreg _ (mapGet_elem_of _ _ _ Hget)) as [(h & _ & Hcol) Hname].
  simpl in Hcol, Hname. unfold after. rewrite step_Draw, Hget. simpl.
  eexists. split; [reflexivity|]. simpl. split_and!; [|by apply startsVisible_orElse|done].
  pose proof (makeColorFromHue_nonempty h) as Hne. rewrite <- Hcol in Hne.
  by destruct (Meta.color m).
Qed.

Lemma draw_records_the_current_identity_witness :
  ∃ stroke,
    strokes (after (run (initial 350) [Connection alice 0 1234; SetName alice (named "Ada") 0])
               (Draw alice dot))
      = [stroke]
    ∧ Stroke.color stroke = makeColorFromHue 350
    ∧ Stroke.username stroke = lit "Ada".
Proof.
  destruct (draw_records_the_current_identity 350
              [Connection alice 0 1234; SetName alice (named "Ada") 0] alice dot
              (Meta.mk (makeColorFromHue 350) (Some 350) (lit "Ada")) eq_refl)
    as (stroke & Hlog & Hcol & Hname & _).
  exists stroke. split_and!; [exact Hlog|exact Hcol|exact Hname].
Defined.

(** X19. [clearByUsername] with a name that is not empty once trimmed
    leaves exactly the strokes whose trimmed author name differs from the
    trimmed argument, in their order, and broadcasts that log to all. *)
Theorem clearByUsername_removes_exactly_that_name st id payload u :
  prop payload "username" = VString u →
  trim u ≠ [] →
  step st (ClearByUsername id payload)
  = (mkState (hueSeed st) (connectedSockets st)
       (filter (λ s, trim (Stroke.username s) ≠ trim u) (strokes st)),
     [(ToAll, MBoardState
                (filter (λ s, trim (Stroke.username s) ≠ trim u) (strokes st)))]).
Proof.
  intros Hp Hu. rewrite step_ClearByUsername, Hp.
  by destruct (trim u) as [|c0 cs].
Qed.

Lemma clearByUsername_removes_exactly_that_name_witness :
  strokes (after twoClients
             (ClearByUsername bob
                (VObject [(lit "username", VString (lit "  User-1234 "))])))
  = take 1 (drop 1 (strokes twoClients)).
Proof.
  unfold after.
  rewrite (clearByUsername_removes_exactly_that_name twoClients bob
             (VObject [(lit "username", VString (lit "  User-1234 "))])
             (lit "  User-1234 ") eq_refl).
  - vm_compute. reflexivity.
  - vm_compute. discriminate.
Defined.

(** X20. [clearByAuthor] with a non-empty id leaves exactly the strokes of
    the other authors, in their order, and broadcasts that log to all. *)
Theorem clearByAuthor_removes_exactly_that_author st id payload author :
  prop payload "authorId" = VString author →
  author ≠ [] →
  step st (ClearByAuthor id payload)
  = (mkState (hueSeed st) (connectedSockets st)
       (filter (λ s, Stroke.authorId s ≠ author) (strokes st)),
     [(ToAll, MBoardState (filter (λ s, Stroke.authorId s ≠ author) (strokes st)))]).
Proof.
  intros Hp Ha. rewrite step_ClearByAuthor, Hp. by destruct author.
Qed.

Lemma clearByAuthor_removes_exactly_that_author_witness :
  strokes (after twoClients
             (ClearByAuthor bob (VObject [(lit "authorId", VString alice)])))
  = take 1 (drop 1 (strokes twoClients)).
Proof.
  unfold after.
  rewrite (clearByAuthor_removes_exactly_that_author twoClients bob
             (VObject [(lit "authorId", VString alice)]) alice eq_refl).
  - vm_compute. reflexivity.
  - vm_compute. discriminate.
Defined.

(** X21. No clear variant adds, alters or reorders strokes: the log after
    it is a sublist of the log before; and none touches the registry or
    the seed. *)
Theorem clears_only_remove_strokes st ev :
  isClearing ev = true →
  strokes (after st ev) `sublist_of` strokes st
  ∧ connectedSockets (after st ev) = connectedSockets st
  ∧ hueSeed (after st ev) = hueSeed st.
Proof.
  intros Hev. rewrite after_clearing by done. simpl.
  split_and!; [apply sublist_filter|done..].
Qed.

Lemma clears_only_remove_strokes_witness :
  strokes (after twoClients (ClearMine alice)) `sublist_of` strokes twoClients.
Proof. by apply clears_only_remove_strokes. Defined.

(** X22. Every clear variant is idempotent: handling the same clear event
    a second time leaves the state as the first left it. *)
Theorem clears_are_idempotent st ev :
  isClearing ev = true →
  after (after st ev) ev = after st ev.
Proof.
  intros Hev. rewrite !after_clearing by done. simpl. f_equal.
  rewrite list_filter_filter. apply list_filter_iff. intros s. tauto.
Qed.

Lemma clears_are_idempotent_witness :
  after (after twoClients (ClearMine bob)) (ClearMine bob)
  = after twoClients (ClearMine bob).
Proof. by apply clears_are_idempotent. Defined.

(** X23. [clearMine] (and the legacy [clear]) from a socket without a
    registry entry removes the strokes authored under that socket id and
    only those: with no name and no colour to compare, author names and
    colours are not looked at. *)
Theorem clearMine_without_registry_entry_goes_by_author_id st id :
  mapGet id (connectedSockets st) = None →
  strokes (after st (ClearMine id))
    = filter (λ s, Stroke.authorId s ≠ id) (strokes st)
  ∧ strokes (after st (Clear id))
    = filter (λ s, Stroke.authorId s ≠ id) (strokes st).
Proof.
  intros Hget. unfold after. rewrite step_Clear, step_ClearMine, Hget. simpl.
  assert (filter (notMine id None) (strokes st)
          = filter (λ s, Stroke.authorId s ≠ id) (strokes st)) as Heq.
  { apply list_filter_iff. intros s. unfold notMine. simpl. split; [tauto|].
    intros Hne. split_and!; done. }
  by rewrite Heq.
Qed.

Lemma clearMine_without_registry_entry_goes_by_author_id_witness :
  strokes (after (after twoClients (Disconnect alice)) (ClearMine alice))
  = take 1 (drop 1 (strokes twoClients)).
Proof.
  destruct (clearMine_without_registry_entry_goes_by_author_id
              (after twoClients (Disconnect alice)) alice eq_refl) as [-> _].
  vm_compute. reflexivity.
Defined.

(** X24. Whatever the event, a [boardState] that is emitted carries the
    stroke log as the event leaves it: no client is ever sent a stale
    board. *)
Theorem emitted_boardState_is_the_log_after_the_event st ev t log :
  (t, MBoardState log) ∈ emitted st ev → log = strokes (after st ev).
Proof.
  destruct (isClearing ev) eqn:Hev.
  - pose proof (after_clearing st ev Hev) as Hafter. unfold emitted, after in *.
    destruct ev as [| | | |id|id|id p|id p|id p|id|]; try discriminate.
    + rewrite step_Clear, step_ClearMine in *. simpl. set_solver.
    + rewrite step_ClearMine. simpl. set_solver.
    + rewrite step_ClearByColor.
      destruct (prop p "color") as [| | | |[|c0 cs]|]; simpl; set_solver.
    + rewrite step_ClearByUsername.
      destruct (prop p "username") as [| | | |u|]; simpl; try set_solver.
      destruct (trim u); simpl; set_solver.
    + rewrite step_ClearByAuthor.
      destruct (prop p "authorId") as [| | | |[|c0 cs]|]; simpl; set_solver.
    + rewrite step_RequestClearAll. simpl. set_solver.
  - unfold emitted, after.
    destruct ev as [id rh rn|id|id p rn|id p| | | | | | |id]; try discriminate.
    + rewrite step_Connection.
      destruct (assignUniqueHue (connectedSockets st) rh st) as [[hue st1] out].
      simpl. set_solver.
    + rewrite step_RequestBoardState. simpl. set_solver.
    + rewrite step_SetName. destruct (mapGet id (connectedSockets st)); simpl; set_solver.
    + rewrite step_Draw. simpl. set_solver.
    + rewrite step_Disconnect. simpl. set_solver.
Qed.

Lemma emitted_boardState_is_the_log_after_the_event_witness :
  (ToAll, MBoardState []) ∈ emitted twoClients (RequestClearAll bob)
  ∧ [] = strokes (after twoClients (RequestClearAll bob)).
Proof.
  assert ((ToAll, MBoardState []) ∈ emitted twoClients (RequestClearAll bob)) as Hin.
  { vm_compute. apply elem_of_cons. right. apply elem_of_cons. by left. }
  split; [exact Hin|].
  exact (emitted_boardState_is_the_log_after_the_event _ _ _ _ Hin).
Defined.

(** * User names and white space *)

Lemma trimStart_id s :
  (∀ c, head s = Some c → isWhiteSpace c = false) → trimStart s = s.
Proof. destruct s as [|c s]; [done|]. intros Hc. simpl. by rewrite (Hc c). Qed.

Lemma trimEnd_id s :
  (∀ c, last s = Some c → isWhiteSpace c = false) → trimEnd s = s.
Proof.
  intros Hc. unfold trimEnd. rewrite trimStart_id; [apply reverse_involutive|].
  intros c. rewrite head_reverse. apply Hc.
Qed.

Lemma trim_idemp s : trim (trim s) = trim s.
Proof.
  destruct (trim_spec s) as (pre & post & _ & _ & _ & Hhead & Hlast).
  unfold trim at 1. rewrite trimStart_id by done. by apply trimEnd_id.
Qed.

Lemma trimStart_snoc_visible l c :
  isWhiteSpace c = false → trimStart (l ++ [c]) ≠ [].
Proof.
  intros Hc. induction l as [|x l IH]; simpl.
  - by rewrite Hc.
  - by destruct (isWhiteSpace x).
Qed.

Lemma trim_startsVisible s : startsVisible s → trim s ≠ [].
Proof.
  destruct s as [|c s]; [done|]. simpl. intros Hc.
  unfold trim. rewrite (trimStart_id (c :: s)) by (by intros ? [= <-]).
  unfold trimEnd. rewrite reverse_cons. intros Hnil.
  apply (trimStart_snoc_visible (reverse s) c Hc).
  apply (f_equal reverse) in Hnil. by rewrite reverse_involutive in Hnil.
Qed.

(** X25. [clearByUsername] does not see white space around its argument:
    a name and the same name trimmed clear the same strokes and emit the
    same. *)
Theorem clearByUsername_ignores_surrounding_white_space st id payload payload' u :
  prop payload "username" = VString u →
  prop payload' "username" = VString (trim u) →
  step st (ClearByUsername id payload) = step st (ClearByUsername id payload').
Proof.
  intros Hp Hp'. rewrite !step_ClearByUsername, Hp, Hp'. by rewrite trim_idemp.
Qed.

Lemma clearByUsername_ignores_surrounding_white_space_witness :
  step twoClients (ClearByUsername bob (VObject [(lit "username", VString (lit " User-1234  "))]))
  = step twoClients (ClearByUsername bob (VObject [(lit "username", VString (lit "User-1234"))])).
Proof.
  apply (clearByUsername_ignores_surrounding_white_space twoClients bob
           (VObject [(lit "username", VString (lit " User-1234  "))])
           (VObject [(lit "username", VString (lit "User-1234"))])
           (lit " User-1234  ")); reflexivity.
Defined.

(** X26. In any state of a run, [clearByUsername] called with the author
    name recorded in a stroke of the log removes that stroke (and every
    stroke recorded under that name): recorded names are never blank. *)
Theorem clearByUsername_of_a_recorded_name_removes_its_strokes
    seed evs id payload s :
  s ∈ strokes (run (initial seed) evs) →
  prop payload "username" = VString (Stroke.username s) →
  ∀ s', s' ∈ strokes (after (run (initial seed) evs) (ClearByUsername id payload)) →
        Stroke.username s' ≠ Stroke.username s.
Proof.
  intros Hs Hp s' Hs'. destruct (run_wellFormed seed evs) as (_ & _ & Hlog).
  rewrite Forall_forall in Hlog. destruct (Hlog s Hs) as [Hname%trim_startsVisible _].
  unfold after in Hs'. rewrite step_ClearByUsername, Hp in Hs'.
  destruct (trim (Stroke.username s)) as [|c0 cs] eqn:Hu; [done|].
  simpl in Hs'. apply list_elem_of_filter in Hs' as [Hne _].
  intros Heq. apply Hne. by rewrite Heq.
Qed.

Lemma clearByUsername_of_a_recorded_name_removes_its_strokes_witness :
  Forall (λ s', Stroke.username s' ≠ placeholderName 4321)
    (strokes (after twoClients
                (ClearByUsername alice
                   (VObject [(lit "username", VString (placeholderName 4321))])))).
Proof.
  apply Forall_forall.
  apply (clearByUsername_of_a_recorded_name_removes_its_strokes 350
           [Connection alice 0 1234; Draw alice segment;
            Connection bob 0 4321; Draw bob dot; Draw alice fromOrigin]
           alice
           (VObject [(lit "username", VString (placeholderName 4321))])
           (safePayload bob
              (Some (Meta.mk (makeColorFromHue 127) (Some 127) (placeholderName 4321)))
              dot)).
  - vm_compute. apply elem_of_cons. right. apply elem_of_cons. by left.
  - reflexivity.
Defined.

(** * Colours and hues of the registry *)

Lemma reachable_huesEncoded st : reachable st → huesEncoded (connectedSockets st).
Proof.
  induction 1 as [seed Hseed|st ev Hreach IH Hguard]; [constructor|].
  pose proof (reachable_registryInvariant st Hreach) as (Hseed & _).
  pose proof (step_registry_unchanged st ev) as Hsame.
  unfold huesEncoded in *. rewrite Forall_forall in IH.
  destruct ev as [id rh rn| |id p rn| | | | | | | |id];
    [ | destruct Hsame as [-> _]; by apply Forall_forall
      | | destruct Hsame as [-> _]; by apply Forall_forall .. | ].
  - destruct (connection_while_free st id rh rn) as (h & _ & Hh & _ & ->).
    { lia. }
    { pose proof (size_getUsedHues (connectedSockets st)).
      specialize (Hguard id rh rn eq_refl). lia. }
    simpl. apply Forall_forall. intros e [->|He]%elem_of_mapSet; [|by apply IH].
    simpl. by exists h.
  - unfold after. rewrite step_SetName.
    destruct (mapGet id (connectedSockets st)) as [meta|] eqn:Hget;
      [|by apply Forall_forall].
    simpl. apply Forall_forall. intros e [->|He]%elem_of_mapSet; [|by apply IH].
    simpl. apply (IH (id, meta)). by apply mapGet_elem_of.
  - unfold after. rewrite step_Disconnect. simpl. apply Forall_forall.
    intros e [_ He]%list_elem_of_filter. by apply IH.
Qed.

(** X27. In a reachable state (connects accepted below 360 live entries)
    every registry entry holds a hue of [0, 360) and the colour string made
    from it, and parsing the colour gives the hue back: the colour a client
    is told and the hue the allocator reserves never disagree. *)
Theorem registry_colours_encode_their_hues st id m :
  reachable st →
  mapGet id (connectedSockets st) = Some m →
  ∃ h, Meta.hue m = Some h
       ∧ 0 ≤ h < 360
       ∧ Meta.color m = makeColorFromHue h
       ∧ parseHueFromColorString (Meta.color m) = Some h.
Proof.
  intros Henc%reachable_huesEncoded Hget%mapGet_elem_of.
  unfold huesEncoded in Henc. rewrite Forall_forall in Henc.
  destruct (Henc _ Hget) as (h & Hh & Hrange & Hcol). simpl in *.
  exists h. split_and!; [done|lia|lia|done|].
  rewrite Hcol, parseHue_makeColor by lia. f_equal. lia.
Qed.

Lemma registry_colours_encode_their_hues_witness :
  ∃ h, Some 127 = Some h
       ∧ 0 ≤ h < 360
       ∧ makeColorFromHue 127 = makeColorFromHue h
       ∧ parseHueFromColorString (makeColorFromHue 127) = Some h.
Proof.
  apply (registry_colours_encode_their_hues twoClients bob
           (Meta.mk (makeColorFromHue 127) (Some 127) (placeholderName 4321)));
    [|reflexivity].
  unfold twoClients, run. cbn [foldl].
  repeat (apply reachable_step;
          [|intros id rndHue rndName Hev; first [discriminate|vm_compute; lia]]).
  apply reachable_initial. lia.
Defined.

(** X28. Whatever events are handled, connections beyond 360 included, the
    seed of the allocator stays an integer of [0, 360): every probing starts
    on a hue. *)
Theorem seed_stays_a_hue_in_every_run seed evs :
  0 ≤ seed < 360 → 0 ≤ hueSeed (run (initial seed) evs) < 360.
Proof. apply run_hueSeed_range. Qed.

Lemma seed_stays_a_hue_in_every_run_witness :
  0 ≤ hueSeed (run (initial 350) [Connection alice 0 1234; Disconnect alice;
                                   Connection bob 99 4321]) < 360.
Proof. apply seed_stays_a_hue_in_every_run. lia. Defined.
